(** * Narrative Cards: the card repository and the exchange module

    A shallow embedding of the [DataStore] class of [src/app.js] and of the
    two exchange functions [exportCards] and [importCards], with the
    properties of the repository that the specification states.

    Modelling conventions.
    - A card is a JavaScript object used as a record with an open set of
      fields: a finite map from property names to values.  Reading a
      property the object does not have yields [None] (JavaScript's
      [undefined]).
    - Values are the JSON values (null, booleans, numbers, strings, arrays,
      objects) and the built-in objects that a property read can pick up
      from [Object.prototype].  Numbers are the whole numbers that a
      double holds exactly (up to 2^53 in absolute value), which
      JavaScript prints in full.
    - Strings are Rocq strings, and the text they stand for is ASCII text:
      [toLowerCase] lowers the 26 capital letters, as
      [String.prototype.toLowerCase] does on ASCII text and only there.
      The theorems that depend on what [toLowerCase] returns assume that
      the strings it is applied to are ASCII ([is_ascii]).
    - A call that can throw returns a [completion]; a method that mutates
      the store returns the store it leaves behind, also when it throws.
    - The clock and the random generator are inputs: every read of
      [Date.now()], [new Date()] and [Math.random()] is an argument of the
      operation that performs it.
    - Of the presentation layer, what bears on the store is modelled:
      [renderCardsList], which sorts the array of the store in place, and
      whether the code that writes the page completes.  What the
      JavaScript engine and the page decide is an input ([Ui]): the order
      in which [Array.prototype.sort] calls its comparator, the order of
      strings of [localeCompare], the filter of the list, and the
      completion of the writing of the page.  The toast an import ends
      with is the [outcome] of the import. *)

From stdpp Require Import gmap strings list fin_maps pretty.
From Stdlib Require Import ZArith Lia Ascii.

#[local] Set Warnings "-register-all".
#[local] Open Scope Z_scope.

(** ** Values *)

Inductive value :=
| VNull
| VBool (b : bool)
| VNum (n : Z)
| VStr (s : string)
| VArr (xs : list value)
| VObj (o : gmap string value)
| VBuiltin (name : string).

(** A card, and any other plain object: its own properties. *)
Abbreviation Card := (gmap string value).

Inductive exn :=
| TypeError
| SyntaxError
| Error (msg : string).

Inductive completion (A : Type) :=
| Normal (a : A)
| Throw (e : exn).
Arguments Normal {A} a.
Arguments Throw {A} e.

#[global] Instance completion_ret : MRet completion := @Normal.

#[global] Instance completion_bind : MBind completion := λ A B k c,
  match c with
  | Normal a => k a
  | Throw e => Throw e
  end.

(** ToBoolean. The falsy values are [undefined], [null], [false], [0] and
    the empty string. *)
Definition truthy (v : value) : bool :=
  match v with
  | VNull => false
  | VBool b => b
  | VNum n => negb (Z.eqb n 0)
  | VStr s => negb (String.eqb s "")
  | VArr _ | VObj _ | VBuiltin _ => true
  end.

Definition truthy_opt (ov : option value) : bool :=
  match ov with
  | Some v => truthy v
  | None => false
  end.

(** [v === id] and [v !== id] for a string [id]. *)
Definition strict_eq_str (id : string) (v : value) : bool :=
  match v with
  | VStr s => String.eqb s id
  | _ => false
  end.

Definition strict_ne_str (id : string) (v : value) : bool :=
  negb (strict_eq_str id v).

(** ** Strings *)

Definition lower_ascii (c : ascii) : ascii :=
  let n := nat_of_ascii c in
  if ((65 <=? n) && (n <=? 90))%nat then ascii_of_nat (n + 32) else c.

(** [s.toLowerCase()] for a string of ASCII text. *)
Fixpoint toLowerCase (s : string) : string :=
  match s with
  | EmptyString => EmptyString
  | String c s' => String (lower_ascii c) (toLowerCase s')
  end.

(** [s.includes(t)]: [t] occurs in [s] as a substring. *)
Fixpoint includes (s t : string) : bool :=
  String.prefix t s ||
  match s with
  | EmptyString => false
  | String _ s' => includes s' t
  end.

(** [s.substr(start, len)] is [String.substring start len s]. *)
Definition substr (start len : nat) (s : string) : string :=
  String.substring start len s.

(** ** Time stamps: [Date.prototype.toISOString] *)

Definition pad (width : nat) (n : Z) : string :=
  let digits := pretty n in
  String.concat "" (replicate (width - String.length digits) "0") +:+ digits.

(** The civil date of a day count since 1970-01-01, in the proleptic
    Gregorian calendar. *)
Definition civil_from_days (days : Z) : Z * Z * Z :=
  let z := days + 719468 in
  let era := z / 146097 in
  let doe := z - era * 146097 in
  let yoe := (doe - doe / 1460 + doe / 36524 - doe / 146096) / 365 in
  let doy := doe - (365 * yoe + yoe / 4 - yoe / 100) in
  let mp := (5 * doy + 2) / 153 in
  let d := doy - (153 * mp + 2) / 5 + 1 in
  let m := if mp <? 10 then mp + 3 else mp - 9 in
  let y := yoe + era * 400 + (if m <=? 2 then 1 else 0) in
  (y, m, d).

Definition iso_year (y : Z) : string :=
  if (0 <=? y) && (y <=? 9999) then pad 4 y
  else if y <? 0 then "-" +:+ pad 6 (- y)
  else "+" +:+ pad 6 y.

(** [new Date(ms).toISOString()] *)
Definition toISOString (ms : Z) : string :=
  let days := ms / 86400000 in
  let rest := ms mod 86400000 in
  let '(y, m, d) := civil_from_days days in
  iso_year y +:+ "-" +:+ pad 2 m +:+ "-" +:+ pad 2 d +:+ "T" +:+
  pad 2 (rest / 3600000) +:+ ":" +:+ pad 2 (rest / 60000 mod 60) +:+ ":" +:+
  pad 2 (rest / 1000 mod 60) +:+ "." +:+ pad 3 (rest mod 1000) +:+ "Z".

(** ** The data store *)

Record DataStore := mkDataStore {
  cards : list Card;
  navigationHistory : list string
}.

(** [new DataStore()] *)
Definition empty_store : DataStore := mkDataStore [] [].

(** [generateId()], with the clock reading [now] of [Date.now()] and the
    text [random36] of [Math.random().toString(36)]. *)
Definition generateId (now : Z) (random36 : string) : string :=
  "card_" +:+ pretty now +:+ "_" +:+ substr 2 9 random36.

(** [xs.findIndex(p)]; [None] stands for the index -1. *)
Fixpoint findIndex {A} (p : A → bool) (xs : list A) : option nat :=
  match xs with
  | [] => None
  | x :: rest => if p x then Some 0%nat else S <$> findIndex p rest
  end.

(** [c => c.id === id] *)
Definition has_id (id : string) (c : Card) : bool :=
  match c !! "id" with
  | Some v => strict_eq_str id v
  | None => false
  end.

(** [createCard(cardData)].  [now] and [random36] are read by
    [generateId()], [t_created] and [t_updated] by the two [new Date()] of
    the object literal, in that order.  The spread [...cardData] comes
    last in the literal, so its properties win. *)
Definition createCard (now : Z) (random36 : string) (t_created t_updated : Z)
    (cardData : Card) (s : DataStore) : Card * DataStore :=
  let card :=
    cardData ∪
    <["updatedAt" := VStr (toISOString t_updated)]>
      (<["createdAt" := VStr (toISOString t_created)]>
        {["id" := VStr (generateId now random36)]}) in
  (card, mkDataStore (cards s ++ [card]) (navigationHistory s)).

(** [updateCard(id, cardData)]; [None] is the [null] returned when no card
    has the id. *)
Definition updateCard (now : Z) (id : string) (cardData : Card)
    (s : DataStore) : option Card * DataStore :=
  match findIndex (has_id id) (cards s) with
  | Some index =>
      match cards s !! index with
      | Some old =>
          let card := <["updatedAt" := VStr (toISOString now)]> (cardData ∪ old) in
          (Some card, mkDataStore (<[index := card]> (cards s)) (navigationHistory s))
      | None => (None, s)
      end
  | None => (None, s)
  end.

(** One of the three guarded assignments in the loop of [deleteCard]:
    [if (card.f) { card.f = card.f.filter(x => x !== id); }].
    A truthy value that is not an array has no [filter] method. *)
Definition strip_field (id f : string) (c : Card) : completion Card :=
  match c !! f with
  | Some v =>
      if truthy v then
        match v with
        | VArr xs => Normal (<[f := VArr (List.filter (strict_ne_str id) xs)]> c)
        | _ => Throw TypeError
        end
      else Normal c
  | None => Normal c
  end.

(** The body of the loop, on one card: the card it leaves, and how it
    completes. *)
Definition strip_card (id : string) (c : Card) : completion unit * Card :=
  match strip_field id "adjacentLocations" c with
  | Throw e => (Throw e, c)
  | Normal c1 =>
      match strip_field id "presentCharacters" c1 with
      | Throw e => (Throw e, c1)
      | Normal c2 =>
          match strip_field id "bonds" c2 with
          | Throw e => (Throw e, c2)
          | Normal c3 => (Normal (), c3)
          end
      end
  end.

(** [this.cards.forEach(card => { ... })]: the cards are updated in place,
    in order, until the body throws. *)
Fixpoint strip_all (id : string) (cs : list Card) : completion unit * list Card :=
  match cs with
  | [] => (Normal (), [])
  | c :: rest =>
      match strip_card id c with
      | (Normal _, c') =>
          let '(r, rest') := strip_all id rest in (r, c' :: rest')
      | (Throw e, c') => (Throw e, c' :: rest)
      end
  end.

(** [deleteCard(id)] *)
Definition deleteCard (id : string) (s : DataStore) : completion bool * DataStore :=
  match findIndex (has_id id) (cards s) with
  | Some index =>
      match strip_all id (cards s) with
      | (Normal _, cs) =>
          (Normal true, mkDataStore (delete index cs) (navigationHistory s))
      | (Throw e, cs) => (Throw e, mkDataStore cs (navigationHistory s))
      end
  | None => (Normal false, s)
  end.

(** [getCard(id)]; [None] is [undefined]. *)
Definition getCard (id : string) (s : DataStore) : option Card :=
  List.find (has_id id) (cards s).

(** [getCardsByType(type)] *)
Definition getCardsByType (type : string) (s : DataStore) : list Card :=
  List.filter
    (λ c, match c !! "type" with Some v => strict_eq_str type v | None => false end)
    (cards s).

(** [getAllCards()] *)
Definition getAllCards (s : DataStore) : list Card := cards s.

(** The callback of [searchCards]:
    [card.name.toLowerCase().includes(lowerQuery) ||
     (card.description && card.description.toLowerCase().includes(lowerQuery))],
    as the truth value [filter] takes from it.  Only strings have a
    [toLowerCase] method. *)
Definition search_match (lowerQuery : string) (c : Card) : completion bool :=
  match c !! "name" with
  | Some (VStr name) =>
      if includes (toLowerCase name) lowerQuery then Normal true
      else
        match c !! "description" with
        | Some v =>
            if truthy v then
              match v with
              | VStr description =>
                  Normal (includes (toLowerCase description) lowerQuery)
              | _ => Throw TypeError
              end
            else Normal false
        | None => Normal false
        end
  | _ => Throw TypeError
  end.

(** [xs.filter(p)] for a callback that can throw. *)
Fixpoint filter_completion {A} (p : A → completion bool) (xs : list A)
    : completion (list A) :=
  match xs with
  | [] => Normal []
  | x :: rest =>
      p x ≫= λ b : bool,
      filter_completion p rest ≫= λ ys,
      Normal (if b then x :: ys else ys)
  end.

(** [searchCards(query)] *)
Definition searchCards (query : string) (s : DataStore) : completion (list Card) :=
  let lowerQuery := toLowerCase query in
  filter_completion (search_match lowerQuery) (cards s).

(** [pushToHistory(cardId)]: [push], then [shift] when the history has
    grown past 20 entries. *)
Definition pushToHistory (cardId : string) (s : DataStore) : DataStore :=
  let h := navigationHistory s ++ [cardId] in
  mkDataStore (cards s)
    (if (20 <? length h)%nat then drop 1 h else h).

(** [getLastFromHistory()]: [pop]. *)
Definition getLastFromHistory (s : DataStore) : option string * DataStore :=
  (last (navigationHistory s),
   mkDataStore (cards s) (removelast (navigationHistory s))).

(** ** The exchange module *)

(** The names that every plain object inherits from [Object.prototype]. *)
Definition Object_prototype_names : list string :=
  ["constructor"; "hasOwnProperty"; "isPrototypeOf"; "propertyIsEnumerable";
   "toLocaleString"; "toString"; "valueOf"; "__proto__";
   "__defineGetter__"; "__defineSetter__"; "__lookupGetter__";
   "__lookupSetter__"].

(** ToString, as a property read [o[v]] applies it to the value [v].
    An array is joined with commas, [null] elements giving the empty
    string; a plain object answers ["[object Object]"] unless a property
    of its own hides the inherited [toString], and then no primitive can
    be had from it. *)
Fixpoint ToString (v : value) : completion string :=
  match v with
  | VNull => Normal "null"
  | VBool b => Normal (if b then "true" else "false")
  | VNum n => Normal (pretty n)
  | VStr s => Normal s
  | VArr xs =>
      let element (x : value) : completion string :=
        match x with
        | VNull => Normal ""
        | _ => ToString x
        end in
      (fix join (xs : list value) : completion string :=
         match xs with
         | [] => Normal ""
         | [x] => element x
         | x :: rest =>
             element x ≫= λ a : string,
             join rest ≫= λ b : string,
             Normal (a +:+ "," +:+ b)
         end) xs
  | VObj o =>
      match o !! "toString" with
      | Some _ => Throw TypeError
      | None => Normal "[object Object]"
      end
  | VBuiltin name =>
      if String.eqb name "__proto__" then Normal "[object Object]"
      else Normal ("function " +:+
                   (if String.eqb name "constructor" then "Object" else name) +:+
                   "() { [native code] }")
  end.

(** ToPropertyKey of the result of a property read. *)
Definition toPropertyKey (ov : option value) : completion string :=
  match ov with
  | Some v => ToString v
  | None => Normal "undefined"
  end.

(** [v.name], for a name that no built-in prototype defines ([cards] and
    [id] below): [null] has no properties, and only an object can have this
    one. *)
Definition read_prop (name : string) (v : value) : completion (option value) :=
  match v with
  | VNull => Throw TypeError
  | VObj o => Normal (o !! name)
  | _ => Normal None
  end.

(** [idMapping[key] = newId] on the plain object [idMapping]: the setter
    of [__proto__] ignores a string, every other name becomes a property
    of the object. *)
Definition idMapping_set (key newId : string) (idMapping : gmap string string)
    : gmap string string :=
  if String.eqb key "__proto__" then idMapping else <[key := newId]> idMapping.

(** [idMapping[key]]: the object's own property, else what
    [Object.prototype] has under that name. *)
Definition idMapping_get (idMapping : gmap string string) (key : string)
    : option value :=
  match idMapping !! key with
  | Some newId => Some (VStr newId)
  | None =>
      if bool_decide (key ∈ Object_prototype_names) then Some (VBuiltin key)
      else None
  end.

(** The oracle of one import: the [k]-th call of [generateId()] reads
    [id_now k] and [id_random36 k]; the [k]-th imported card takes its two
    time stamps from [created_now k] and [updated_now k]. *)
Record ImportEnv := mkImportEnv {
  id_now : nat → Z;
  id_random36 : nat → string;
  created_now : nat → Z;
  updated_now : nat → Z
}.

Definition fresh_id (env : ImportEnv) (k : nat) : string :=
  generateId (id_now env k) (id_random36 env k).

(** First pass: [idMapping[card.id] = dataStore.generateId()] for each
    card of the document, from its [k]-th card on. *)
Fixpoint first_pass (env : ImportEnv) (k : nat) (entries : list value)
    (idMapping : gmap string string) : completion (gmap string string) :=
  match entries with
  | [] => Normal idMapping
  | card :: rest =>
      read_prop "id" card ≫= λ oldId,
      let newId := fresh_id env k in
      toPropertyKey oldId ≫= λ key,
      first_pass env (S k) rest (idMapping_set key newId idMapping)
  end.

(** [{ ...card }]: the own enumerable properties of the value. *)
Definition spread (v : value) : Card :=
  match v with
  | VObj o => o
  | VArr xs => list_to_map (imap (λ i x, (pretty i, x)) xs)
  | VStr s =>
      list_to_map
        (imap (λ i c, (pretty i, VStr (String c EmptyString))) (String.list_ascii_of_string s))
  | _ => ∅
  end.

(** [o.name = v] where [v] is the result of a property read: a property
    set to [undefined] reads like one that is not there. *)
Definition set_prop (name : string) (ov : option value) (o : Card) : Card :=
  match ov with
  | Some v => <[name := v]> o
  | None => delete name o
  end.

(** [id => idMapping[id] || id] *)
Definition remap_ref (idMapping : gmap string string) (id : value)
    : completion value :=
  toPropertyKey (Some id) ≫= λ key,
  Normal (if truthy_opt (idMapping_get idMapping key)
          then default id (idMapping_get idMapping key)
          else id).

(** [xs.map(f)] for a callback that can throw. *)
Fixpoint map_completion {A B} (f : A → completion B) (xs : list A)
    : completion (list B) :=
  match xs with
  | [] => Normal []
  | x :: rest =>
      f x ≫= λ y,
      map_completion f rest ≫= λ ys,
      Normal (y :: ys)
  end.

(** One of the three guarded rewrites of the second pass:
    [if (newCard.f) { newCard.f = newCard.f.map(id => idMapping[id] || id)
                                           .filter(id => id); }] *)
Definition remap_field (idMapping : gmap string string) (f : string)
    (newCard : Card) : completion Card :=
  match newCard !! f with
  | Some v =>
      if truthy v then
        match v with
        | VArr xs =>
            map_completion (remap_ref idMapping) xs ≫= λ ys,
            Normal (<[f := VArr (List.filter truthy ys)]> newCard)
        | _ => Throw TypeError
        end
      else Normal newCard
  | None => Normal newCard
  end.

(** The body of the second loop up to the [push]: the card that the
    [k]-th card of the document becomes. *)
Definition import_card (env : ImportEnv) (k : nat)
    (idMapping : gmap string string) (card : value) : completion Card :=
  let newCard := spread card in
  read_prop "id" card ≫= λ oldId,
  toPropertyKey oldId ≫= λ key,
  let newCard := set_prop "id" (idMapping_get idMapping key) newCard in
  remap_field idMapping "adjacentLocations" newCard ≫= λ newCard,
  remap_field idMapping "presentCharacters" newCard ≫= λ newCard,
  remap_field idMapping "bonds" newCard ≫= λ newCard,
  Normal (<["updatedAt" := VStr (toISOString (updated_now env k))]>
            (<["createdAt" := VStr (toISOString (created_now env k))]> newCard)).

(** Second pass: every card of the document is rewritten and pushed, in
    order, until the body throws; the cards pushed so far stay. *)
Fixpoint second_pass (env : ImportEnv) (k : nat)
    (idMapping : gmap string string) (entries : list value)
    (store_cards : list Card) (imported : nat) : completion nat * list Card :=
  match entries with
  | [] => (Normal imported, store_cards)
  | card :: rest =>
      match import_card env k idMapping card with
      | Normal newCard =>
          second_pass env (S k) idMapping rest (store_cards ++ [newCard]) (S imported)
      | Throw e => (Throw e, store_cards)
      end
  end.

(** *** The list of cards on the page *)

(** What the code below reads of the page and of the JavaScript engine.
    - [currentFilter] is [this.currentFilter] of the controller.
    - [sort cmp xs] is [xs.sort(cmp)] on the array [xs]: how it completes,
      and the array it leaves.  The sequence of the calls of the
      comparator is the implementation's choice (ECMAScript,
      Array.prototype.sort); [sort_conforms] below states what every
      implementation guarantees.
    - [localeCompare a b] is [a.localeCompare(b)] for two strings: a
      negative number, zero or a positive one, by the order of strings of
      the host's locale.
    - [write_page cs] is the completion of the code that writes the page
      from the cards [cs]: the rest of [renderCardsList] and the calls
      that follow it, [renderCarousels] and [updateWelcomeScreen] in
      [importCards].  That code reads the cards and the page, and changes
      neither the store nor the history. *)
Record Ui := mkUi {
  currentFilter : string;
  sort : (Card → Card → completion Z) → list Card → completion unit * list Card;
  localeCompare : string → string → Z;
  write_page : list Card → completion unit
}.

(** [typeOrder[key]] for
    [const typeOrder = { 'evento': 0, 'local': 1, 'personagem': 2 }];
    like every plain object it answers to the names of
    [Object.prototype]. *)
Definition typeOrder (key : string) : option value :=
  if String.eqb key "evento" then Some (VNum 0)
  else if String.eqb key "local" then Some (VNum 1)
  else if String.eqb key "personagem" then Some (VNum 2)
  else if bool_decide (key ∈ Object_prototype_names) then Some (VBuiltin key)
  else None.

(** [typeOrder[c.type] || 99], as the number that the subtraction takes
    it for; [None] is NaN, which is what a function and
    [Object.prototype] convert to.  The rank 0 of ['evento'] is falsy, so
    an event has the rank 99. *)
Definition type_rank (c : Card) : completion (option Z) :=
  toPropertyKey (c !! "type") ≫= λ key : string,
  Normal match typeOrder key with
         | Some v =>
             if truthy v then
               match v with
               | VNum n => Some n
               | _ => None
               end
             else Some 99
         | None => Some 99
         end.

(** The comparator of [renderCardsList]:
    [(a, b) => { const typeCompare = (typeOrder[a.type] || 99) -
                                     (typeOrder[b.type] || 99);
                 if (typeCompare !== 0) return typeCompare;
                 return a.name.localeCompare(b.name); }],
    as the number that [sort] takes from it: NaN counts as zero.  Only a
    string has a [localeCompare] method; its argument is converted to a
    string. *)
Definition compare_cards (ui : Ui) (a b : Card) : completion Z :=
  type_rank a ≫= λ ra : option Z,
  type_rank b ≫= λ rb : option Z,
  match ra, rb with
  | Some x, Some y =>
      if Z.eqb (x - y) 0 then
        match a !! "name" with
        | Some (VStr name) =>
            toPropertyKey (b !! "name") ≫= λ that : string,
            Normal (localeCompare ui name that)
        | _ => Throw TypeError
        end
      else Normal (x - y)
  | _, _ => Normal 0
  end.

(** [c => c.type === this.currentFilter] *)
Definition has_type (type : string) (c : Card) : bool :=
  match c !! "type" with
  | Some v => strict_eq_str type v
  | None => false
  end.

(** [renderCardsList()], called without an argument, up to the sorting:
    [let filteredCards = cards || this.dataStore.getAllCards();
     if (this.currentFilter !== 'all') {
       filteredCards = filteredCards.filter(c => c.type === this.currentFilter);
     }
     filteredCards.sort(...)].
    Under the filter ['all'] the array that is sorted is the array of
    the store; under another filter it is a copy. *)
Definition renderCardsList (ui : Ui) (cs : list Card) : completion unit * list Card :=
  if String.eqb (currentFilter ui) "all" then sort ui (compare_cards ui) cs
  else ((sort ui (compare_cards ui) (List.filter (has_type (currentFilter ui)) cs)).1, cs).

(** [ui.renderCardsList(); ui.renderCarousels(); ui.updateWelcomeScreen();] *)
Definition render (ui : Ui) (cs : list Card) : completion unit * list Card :=
  match renderCardsList ui cs with
  | (Normal _, cs') => (write_page ui cs', cs')
  | (Throw e, cs') => (Throw e, cs')
  end.

(** What every implementation of [Array.prototype.sort] guarantees of the
    array it leaves and of the way it completes: the array holds the
    elements it held, and [sort] throws only what a call of the
    comparator on two of them throws. *)
Definition sort_conforms (ui : Ui) : Prop :=
  ∀ (cmp : Card → Card → completion Z) (xs : list Card),
    (sort ui cmp xs).2 ≡ₚ xs ∧
    ∀ e, (sort ui cmp xs).1 = Throw e →
         ∃ a b, a ∈ xs ∧ b ∈ xs ∧ cmp a b = Throw e.

(** One implementation: a stable insertion sort, which leaves the array
    as it was when the comparator throws (the elements are written back
    once the sorting is done). *)
Fixpoint insert_by {A} (cmp : A → A → completion Z) (x : A) (ys : list A)
    : completion (list A) :=
  match ys with
  | [] => Normal [x]
  | y :: rest =>
      cmp x y ≫= λ v : Z,
      if v <=? 0 then Normal (x :: ys)
      else insert_by cmp x rest ≫= λ zs, Normal (y :: zs)
  end.

Fixpoint sort_by {A} (cmp : A → A → completion Z) (xs : list A)
    : completion (list A) :=
  match xs with
  | [] => Normal []
  | x :: rest => sort_by cmp rest ≫= insert_by cmp x
  end.

Definition insertion_sort {A} (cmp : A → A → completion Z) (xs : list A)
    : completion unit * list A :=
  match sort_by cmp xs with
  | Normal ys => (Normal (), ys)
  | Throw e => (Throw e, xs)
  end.

(** The order of strings by their character codes. *)
Definition compare_codes (a b : string) : Z :=
  match String.compare a b with
  | Lt => -1
  | Eq => 0
  | Gt => 1
  end.

(** The [try] block of [reader.onload]; [parsed] is the completion of
    [JSON.parse(e.target.result)]. *)
Definition import_try (ui : Ui) (env : ImportEnv) (parsed : completion value)
    (s : DataStore) : completion nat * DataStore :=
  match parsed with
  | Throw e => (Throw e, s)
  | Normal data =>
      match read_prop "cards" data with
      | Throw e => (Throw e, s)
      | Normal (Some (VArr entries)) =>
          match first_pass env 0 entries ∅ with
          | Throw e => (Throw e, s)
          | Normal idMapping =>
              match second_pass env 0 idMapping entries (cards s) 0 with
              | (Normal imported, cs) =>
                  match render ui cs with
                  | (Normal _, cs') =>
                      (Normal imported, mkDataStore cs' (navigationHistory s))
                  | (Throw e, cs') =>
                      (Throw e, mkDataStore cs' (navigationHistory s))
                  end
              | (Throw e, cs) => (Throw e, mkDataStore cs (navigationHistory s))
              end
          end
      | Normal _ => (Throw (Error "Formato de arquivo inválido"), s)
      end
  end.

(** The toast that ends an import: [`${imported} cards importados com
    sucesso!`], or ['Erro ao importar: ...'] from the [catch]. *)
Inductive outcome :=
| ToastSuccess (imported : nat)
| ToastError.

(** [reader.onload] of [importCards]. *)
Definition importCards (ui : Ui) (env : ImportEnv) (parsed : completion value)
    (s : DataStore) : outcome * DataStore :=
  match import_try ui env parsed s with
  | (Normal imported, s') => (ToastSuccess imported, s')
  | (Throw _, s') => (ToastError, s')
  end.

(** What [JSON.parse(JSON.stringify(v))] is: a JSON value is read back as
    it was written; a function is left out of an object and written as
    [null] in an array; [Object.prototype] has no enumerable property. *)
Fixpoint JSON_copy (v : value) : option value :=
  match v with
  | VArr xs => Some (VArr (map (λ x, default VNull (JSON_copy x)) xs))
  | VObj o => Some (VObj (omap JSON_copy o))
  | VBuiltin name =>
      if String.eqb name "__proto__" then Some (VObj ∅) else None
  | _ => Some v
  end.

(** [exportCards()]: the document that the downloaded file holds, as
    [JSON.parse] reads it back; [None] when the store is empty and nothing
    is written. *)
Definition exportCards (now : Z) (s : DataStore) : option value :=
  match getAllCards s with
  | [] => None
  | cs =>
      JSON_copy
        (VObj
           (<["cards" := VArr (VObj <$> cs)]>
              (<["exportDate" := VStr (toISOString now)]>
                 {["version" := VStr "1.0"]})))
  end.

(** ** Vocabulary of the specification *)

(** *** Navigation history *)

(** The ids pushed one after the other. *)
Definition pushAll (ids : list string) (s : DataStore) : DataStore :=
  foldl (λ s id, pushToHistory id s) s ids.

(** The last [n] elements of a list, all of them when it is shorter. *)
Definition last_n {A} (n : nat) (xs : list A) : list A :=
  drop (length xs - n) xs.

(** *** References between cards *)

(** The three fields that hold lists of card ids. *)
Definition ref_fields : list string :=
  ["adjacentLocations"; "presentCharacters"; "bonds"].

(** What the cascade of [deleteCard] makes of the field [f] of a card. *)
Definition stripped_field (id f : string) (ov : option value) : option value :=
  match ov with
  | Some (VArr xs) =>
      if bool_decide (f ∈ ref_fields)
      then Some (VArr (List.filter (strict_ne_str id) xs))
      else ov
  | _ => ov
  end.

Definition stripped (id : string) (c c' : Card) : Prop :=
  ∀ f, c' !! f = stripped_field id f (c !! f).

(** At most one position of the collection holds a card with this id. *)
Definition only_card_with_id (id : string) (s : DataStore) : Prop :=
  ∀ i j ci cj,
    cards s !! i = Some ci → cards s !! j = Some cj →
    has_id id ci = true → has_id id cj = true → i = j.

(** *** Search *)







(** The card has a string for a name, and for a description a string or
    nothing that counts (no property, or a falsy value). *)
Definition searchable (c : Card) : bool :=
  match c !! "name" with
  | Some (VStr _) =>
      match c !! "description" with
      | Some (VStr _) | None => true
      | Some v => negb (truthy v)
      end
  | _ => false
  end.



Definition card_matchesb (query : string) (c : Card) : bool :=
  match c !! "name" with
  | Some (VStr name) => includes (toLowerCase name) (toLowerCase query)
  | _ => false
  end ||
  match c !! "description" with
  | Some (VStr description) =>
      includes (toLowerCase description) (toLowerCase query)
  | _ => false
  end.

(** *** Identifiers *)

(** The string has no underscore. *)
Fixpoint plain (s : string) : bool :=
  match s with
  | EmptyString => true
  | String c s' => negb (Ascii.eqb c "_") && plain s'
  end.

(** *** Documents and typed cards *)

(** The parsed file has a [cards] property that is an array. *)
Definition has_cards_array (data : value) : bool :=
  match data with
  | VObj o => match o !! "cards" with Some (VArr _) => true | _ => false end
  | _ => false
  end.

(** The file does not parse, or what it parses to has no array of cards. *)
Definition malformed (parsed : completion value) : bool :=
  match parsed with
  | Throw _ => true
  | Normal data => negb (has_cards_array data)
  end.

Definition is_string (v : value) : bool :=
  match v with VStr _ => true | _ => false end.

(** The field is absent or holds a list of strings. *)
Definition id_list (ov : option value) : bool :=
  match ov with
  | None => true
  | Some (VArr xs) => forallb is_string xs
  | Some _ => false
  end.

(** The identifier of a card, when it is a string. *)
Definition card_id (c : Card) : option string :=
  match c !! "id" with
  | Some (VStr id) => Some id
  | _ => None
  end.

(** A card as the data model has it: a string for an id, and lists of
    ids in the three reference fields it may have. *)
Definition typed_card (c : Card) : bool :=
  bool_decide (is_Some (card_id c)) &&
  forallb (λ f, id_list (c !! f)) ref_fields.

Definition typed_entry (e : value) : bool :=
  match e with
  | VObj c => typed_card c
  | _ => false
  end.

Definition entry_id (e : value) : option string :=
  match e with
  | VObj c => card_id c
  | _ => None
  end.

(** [idMapping[id] || id] for a string [id]. *)
Definition remap_id (idMapping : gmap string string) (id : string) : value :=
  if truthy_opt (idMapping_get idMapping id)
  then default (VStr id) (idMapping_get idMapping id)
  else VStr id.

Definition remap_value (idMapping : gmap string string) (v : value) : value :=
  match v with
  | VStr id => remap_id idMapping id
  | _ => v
  end.

Definition remapped_field (idMapping : gmap string string) (ov : option value)
    : option value :=
  match ov with
  | Some (VArr xs) =>
      Some (VArr (List.filter truthy (remap_value idMapping <$> xs)))
  | _ => ov
  end.

(** What [import_card] leaves in each field of a typed card. *)
Definition imported_field (env : ImportEnv) (k : nat) (m : gmap string string)
    (c : Card) (f : string) : option value :=
  if decide (f = "updatedAt") then Some (VStr (toISOString (updated_now env k)))
  else if decide (f = "createdAt") then Some (VStr (toISOString (created_now env k)))
  else if decide (f ∈ ref_fields) then remapped_field m (c !! f)
  else if decide (f = "id") then card_id c ≫= idMapping_get m
  else c !! f.

(** The [id] properties of the cards, in collection order. *)
Definition card_ids (cs : list Card) : list (option value) :=
  (λ c : Card, c !! "id") <$> cs.

(** The field [f] of the card at position [k]. *)
Definition card_field (k : nat) (f : string) (s : DataStore) : option value :=
  cards s !! k ≫= λ c, c !! f.

(** Export, then import into a new store. *)
Definition reimport (ui : Ui) (env : ImportEnv) (s : DataStore)
    : outcome * DataStore :=
  match exportCards 0 s with
  | Some data => importCards ui env (Normal data) empty_store
  | None => (ToastError, empty_store)
  end.

(** ** Sample data *)

(** A page that shows all cards and is written without failure, on an
    engine that sorts by insertion and orders strings by their character
    codes. *)
Definition page_all : Ui :=
  mkUi "all" insertion_sort compare_codes (λ _, Normal ()).

(** The same page with the filter on the locations. *)
Definition page_locals : Ui :=
  mkUi "local" insertion_sort compare_codes (λ _, Normal ()).

(** An import within one millisecond, the random draws differing in every
    position: the [k]-th is [0.<k>bcdefghijk]. *)
Definition env_distinct : ImportEnv :=
  mkImportEnv (λ _, 1700000000000) (λ k, "0." +:+ pretty k +:+ "bcdefghijk")
              (λ _, 1700000000000) (λ _, 1700000000000).

(** An import within one millisecond, the random draws differing only
    after their ninth digit: the [k]-th is [0.abcdefghi<k>]. *)
Definition env_truncated : ImportEnv :=
  mkImportEnv (λ _, 1700000000000) (λ k, "0.abcdefghi" +:+ pretty k)
              (λ _, 1700000000000) (λ _, 1700000000001).

Definition document (entries : list value) : Card :=
  {["version" := VStr "1.0"; "cards" := VArr entries]}.

Definition tavern : Card :=
  {["id" := VStr "t"; "type" := VStr "local"; "name" := VStr "Tavern";
    "adjacentLocations" := VArr [VStr "m"]; "presentCharacters" := VArr [VStr "h"]]}.

Definition market : Card :=
  {["id" := VStr "m"; "type" := VStr "local"; "name" := VStr "Market";
    "description" := VStr "Stalls and Rumours";
    "adjacentLocations" := VArr [VStr "t"]; "presentCharacters" := VArr []]}.

Definition hero : Card :=
  {["id" := VStr "h"; "type" := VStr "personagem"; "name" := VStr "Hero";
    "bonds" := VArr []]}.

Definition world : DataStore := mkDataStore [tavern; market; hero] [].

(** Two cards of a document under one id. *)
Definition twin_a : Card := {["id" := VStr "x"; "name" := VStr "A"]}.

Definition twin_b : Card := {["id" := VStr "x"; "name" := VStr "B"]}.

Definition twins : DataStore :=
  (importCards page_all env_distinct
     (Normal (VObj (document [VObj twin_a; VObj twin_b]))) empty_store).2.

(** Three cards created one after the other, the third bonded to the
    second. *)
Definition three_cards : DataStore :=
  let s1 := (createCard 1 "0.aaa" 1 1 {["name" := VStr "A"]} empty_store).2 in
  let s2 := (createCard 2 "0.bbb" 2 2 {["name" := VStr "B"]} s1).2 in
  (createCard 3 "0.ccc" 3 3
     {["name" := VStr "C"; "bonds" := VArr [VStr "card_2_bbb"]]} s2).2.

(** A card created with a string where the list of bonds belongs. *)
Definition odd_bonds : DataStore :=
  (createCard 1 "0.aaa" 1 1 {["name" := VStr "A"; "bonds" := VStr "oops"]}
     empty_store).2.

(** A card created under the id [__proto__]. *)
Definition proto_card : DataStore :=
  (createCard 1 "0.aaa" 1 1 {["id" := VStr "__proto__"; "name" := VStr "P"]}
     empty_store).2.

(** A card created without a name. *)
Definition nameless : DataStore :=
  (createCard 1 "0.aaa" 1 1 {["type" := VStr "evento"]} world).2.

Definition ids25 : list string :=
  ["c01"; "c02"; "c03"; "c04"; "c05"; "c06"; "c07"; "c08"; "c09"; "c10";
   "c11"; "c12"; "c13"; "c14"; "c15"; "c16"; "c17"; "c18"; "c19"; "c20";
   "c21"; "c22"; "c23"; "c24"; "c25"].

(** ** Further vocabulary *)

(** The loop of [deleteCard] runs through on a card each of whose
    reference fields is absent, falsy or an array. *)
Definition strippable_field (ov : option value) : bool :=
  match ov with
  | Some (VArr _) | None => true
  | Some v => negb (truthy v)
  end.

Definition strippable (c : Card) : bool :=
  forallb (λ f, strippable_field (c !! f)) ref_fields.

Definition is_array (v : value) : bool :=
  match v with VArr _ => true | _ => false end.

(** ** The list of cards *)

(** A card that the list can show: its name is a string, and its type is
    a string or missing. *)
Definition listable (c : Card) : bool :=
  match c !! "name" with
  | Some (VStr _) => true
  | _ => false
  end &&
  match c !! "type" with
  | Some (VStr _) | None => true
  | _ => false
  end.

Definition listable_entry (e : value) : bool :=
  match e with
  | VObj c => listable c
  | _ => false
  end.

(** The place of a type in the list: locations, then characters, then
    all the rest. *)
Definition rank_of_type (type : string) : Z :=
  if String.eqb type "local" then 1
  else if String.eqb type "personagem" then 2
  else 99.

(** Two events that have no name. *)
Definition nameless_events : list Card :=
  [{["id" := VStr "e1"; "type" := VStr "evento"]};
   {["id" := VStr "e2"; "type" := VStr "evento"]}].

(** ** The image of the card in the form *)

(** The three globals [currentCardImage], [currentImagePositionX] and
    [currentImagePositionY].  The functions below copy the positions and
    compare them with [undefined], [null] and the strings ["top"] and
    ["bottom"] only, so a position that is no whole number behaves as a
    whole one does. *)
Record ImageData := mkImageData {
  currentCardImage : value;
  currentImagePositionX : value;
  currentImagePositionY : value
}.

(** [getCardImageData()] *)
Definition getCardImageData (st : ImageData) : Card :=
  {["image" := currentCardImage st;
    "imagePositionX" := currentImagePositionX st;
    "imagePositionY" := currentImagePositionY st]}.

(** [v ?? d] *)
Definition nullish_or (ov : option value) (d : value) : value :=
  match ov with
  | None | Some VNull => d
  | Some v => v
  end.

(** [setCardImageData(image, positionX, positionY)]: the globals it
    leaves; it assigns all three.  An argument that is not passed, or is
    [undefined], is [None]. *)
Definition setCardImageData (image positionX positionY : option value)
    : ImageData :=
  let img := if truthy_opt image then default VNull image else VNull in
  match positionY, positionX with
  | None, Some px =>
      mkImageData img (VNum 50)
        match px with
        | VStr p =>
            if String.eqb p "top" then VNum 0
            else if String.eqb p "bottom" then VNum 100
            else VNum 50
        | _ => nullish_or (Some px) (VNum 50)
        end
  | _, _ =>
      mkImageData img (nullish_or positionX (VNum 50)) (nullish_or positionY (VNum 50))
  end.

(** [clearCardImageData()] and [removeCardImage()] *)
Definition clearCardImageData : ImageData :=
  mkImageData VNull (VNum 50) (VNum 50).

(** The image that [editCard(cardId)] loads from the card:
    [if (card.imagePositionX !== undefined)
       setCardImageData(card.image, card.imagePositionX, card.imagePositionY);
     else setCardImageData(card.image, card.imagePosition);] *)
Definition editCard_image (c : Card) : ImageData :=
  match c !! "imagePositionX" with
  | Some px => setCardImageData (c !! "image") (Some px) (c !! "imagePositionY")
  | None => setCardImageData (c !! "image") (c !! "imagePosition") None
  end.

(** The image is [null] or truthy, and no position is [null]. *)
Definition image_ok (st : ImageData) : Prop :=
  (currentCardImage st = VNull ∨ truthy (currentCardImage st) = true) ∧
  currentImagePositionX st ≠ VNull ∧
  currentImagePositionY st ≠ VNull.

(** ** The form *)

(** [s.trimStart()] and [s.trim()], on ASCII text: the white space of
    ASCII is the tab, the line feed, the vertical tab, the form feed, the
    carriage return and the space. *)
Fixpoint trimStart (s : string) : string :=
  match s with
  | EmptyString => EmptyString
  | String c s' => if Ascii.is_space c then trimStart s' else s
  end.

Definition trim (s : string) : string :=
  String.rev (trimStart (String.rev (trimStart s))).

(** What [handleFormSubmit] reads: the two fields of the controller, the
    values of the inputs, the ids of the connection tags in the three
    containers ([getSelectedConnections]), and the image. *)
Record Form := mkForm {
  selectedType : value;
  editingCardId : option string;
  card_name : string;
  card_description : string;
  evento_consequences : string;
  evento_hooks : string;
  personagem_occupation : string;
  personagem_age : string;
  personagem_appearance : string;
  personagem_personality : string;
  personagem_history : string;
  personagem_secrets : string;
  selected_adjacent : list string;
  selected_characters : list string;
  selected_bonds : list string;
  form_image : ImageData
}.

(** The fields that [handleFormSubmit] adds for the type of the card. *)
Definition type_fields : list string :=
  ["hooks"; "consequences"; "presentCharacters"; "adjacentLocations"; "bonds";
   "secrets"; "history"; "personality"; "appearance"; "age"; "occupation"].

(** The toast that [handleFormSubmit] shows. *)
Inductive form_toast :=
| SelectType
| EnterName
| CardUpdated
| CardCreated.

(** The [cardData] that [handleFormSubmit] assembles. *)
Definition form_cardData (form : Form) : Card :=
  let cardData : Card :=
    getCardImageData (form_image form) ∪
    {["type" := selectedType form;
      "name" := VStr (trim (card_name form));
      "description" := VStr (trim (card_description form))]} in
  if strict_eq_str "evento" (selectedType form) then
    <["hooks" := VStr (trim (evento_hooks form))]>
      (<["consequences" := VStr (trim (evento_consequences form))]> cardData)
  else if strict_eq_str "local" (selectedType form) then
    <["presentCharacters" := VArr (VStr <$> selected_characters form)]>
      (<["adjacentLocations" := VArr (VStr <$> selected_adjacent form)]> cardData)
  else if strict_eq_str "personagem" (selectedType form) then
    <["bonds" := VArr (VStr <$> selected_bonds form)]>
      (<["secrets" := VStr (trim (personagem_secrets form))]>
      (<["history" := VStr (trim (personagem_history form))]>
      (<["personality" := VStr (trim (personagem_personality form))]>
      (<["appearance" := VStr (trim (personagem_appearance form))]>
      (<["age" := VStr (trim (personagem_age form))]>
      (<["occupation" := VStr (trim (personagem_occupation form))]> cardData))))))
  else cardData.

(** The card that [handleFormSubmit] hands to the store, before the list
    is rendered.  [createCard] reads the clock and the random generator
    as before; [updateCard] reads the clock once, and that reading is
    [t_updated]. *)
Definition form_save (now : Z) (random36 : string) (t_created t_updated : Z)
    (form : Form) (s : DataStore) : form_toast * DataStore :=
  match editingCardId form with
  | Some id =>
      if truthy (VStr id)
      then (CardUpdated, (updateCard t_updated id (form_cardData form) s).2)
      else (CardCreated,
            (createCard now random36 t_created t_updated (form_cardData form) s).2)
  | None =>
      (CardCreated,
       (createCard now random36 t_created t_updated (form_cardData form) s).2)
  end.

(** [handleFormSubmit()]: the toast, how the handler completes, and the
    store it leaves.  After the card is saved and the toast shown come
    [renderCardsList()], [renderCarousels()], [showView('cards')],
    [updateWelcomeScreen()] and [resetForm()]: the sorting of the list,
    and then the writing of the page, for which [write_page] stands here
    as well. *)
Definition handleFormSubmit (ui : Ui) (now : Z) (random36 : string)
    (t_created t_updated : Z) (form : Form) (s : DataStore)
    : form_toast * completion unit * DataStore :=
  if negb (truthy (selectedType form)) then (SelectType, Normal (), s)
  else if negb (truthy (VStr (trim (card_name form)))) then (EnterName, Normal (), s)
  else
    let '(toast, s') := form_save now random36 t_created t_updated form s in
    let '(r, cs) := render ui (cards s') in
    (toast, r, mkDataStore cs (navigationHistory s')).

(** A new location, its name typed with blanks around it. *)
Definition harbour_form : Form :=
  mkForm (VStr "local") None "  Harbour " "Ships and salt" "" "" "" "" "" "" "" ""
         ["m"] ["h"] [] (mkImageData (VStr "data:image/png;base64,AAAA") (VNum 50) (VNum 20)).

(** The same form with blanks for a name. *)
Definition blank_form : Form :=
  mkForm (VStr "local") None "   " "Ships and salt" "" "" "" "" "" "" "" ""
         ["m"] ["h"] [] clearCardImageData.

(** A card saved by an old version, with the single position of its
    image. *)
Definition old_card : Card :=
  {["name" := VStr "Old"; "image" := VStr "data:x"; "imagePosition" := VStr "top"]}.

(** A document whose third card has a string for its bonds. *)
Definition half_good : Card :=
  document [VObj tavern; VObj market;
            VObj {["id" := VStr "z"; "name" := VStr "Z"; "bonds" := VStr "h"]}].

(** A card bonded to a card outside its document, to nothing, and to
    itself. *)
Definition dangling : Card :=
  {["id" := VStr "a"; "name" := VStr "A";
    "bonds" := VArr [VStr "h"; VStr ""; VStr "a"]]}.
(** * Properties *)

(** ** Lists, strings and completions *)

Lemma findIndex_Some {A} (p : A → bool) (xs : list A) (i : nat) :
  findIndex p xs = Some i ↔
  (∃ x, xs !! i = Some x ∧ p x = true) ∧
  (∀ j y, (j < i)%nat → xs !! j = Some y → p y = false).
Proof.
  revert i. induction xs as [|x xs IH]; intros i; simpl.
  - split; [done|]. by intros [(y & Hy & _) _].
  - destruct (p x) eqn:Hpx.
    + split.
      * intros [= <-]. split; [by exists x|]. intros j y Hj. lia.
      * intros [(y & Hy & Hpy) Hfirst]. destruct i as [|i]; [done|].
        specialize (Hfirst 0%nat x ltac:(lia) eq_refl). congruence.
    + destruct (findIndex p xs) as [k|]; simpl.
      * split.
        -- intros [= <-]. destruct (proj1 (IH k) eq_refl) as [Hk Hfirst]. split; [done|].
           intros [|j] y Hj; simpl; [congruence|]. apply Hfirst. lia.
        -- intros [(y & Hy & Hpy) Hfirst]. destruct i as [|i]; simpl in *; [congruence|].
           f_equal. assert (Hi : Some k = Some i); [|congruence].
           apply IH. split; [by exists y|].
           intros j z Hj Hz. apply (Hfirst (S j) z); [lia|done].
      * split; [done|]. intros [(y & Hy & Hpy) Hfirst].
        destruct i as [|i]; simpl in *; [congruence|].
        assert (Hi : @None nat = Some i); [|congruence].
        apply IH. split; [by exists y|].
        intros j z Hj Hz. apply (Hfirst (S j) z); [lia|done].
Qed.

Lemma findIndex_None {A} (p : A → bool) (xs : list A) :
  findIndex p xs = None ↔ ∀ x, x ∈ xs → p x = false.
Proof.
  induction xs as [|x xs IH]; simpl.
  - split; [|done]. intros _ x Hx. by apply elem_of_nil in Hx.
  - destruct (p x) eqn:Hpx.
    + split; [done|]. intros H. specialize (H x (list_elem_of_here _ _)). congruence.
    + destruct (findIndex p xs) as [n|]; simpl.
      * split; [done|]. intros H.
        assert (Some n = None); [|done]. apply IH.
        intros y Hy. apply H. by apply list_elem_of_further.
      * split; [|done]. intros _ y Hy. apply elem_of_cons in Hy as [->|Hy]; [done|].
        by apply IH.
Qed.

Lemma find_findIndex {A} (p : A → bool) (xs : list A) :
  List.find p xs = findIndex p xs ≫= λ i, xs !! i.
Proof.
  induction xs as [|x xs IH]; simpl; [done|].
  destruct (p x); [done|]. rewrite IH. by destruct (findIndex p xs).
Qed.

Lemma findIndex_agree {A B} (p : A → bool) (q : B → bool) (xs : list A) (ys : list B) :
  length xs = length ys →
  (∀ i x y, xs !! i = Some x → ys !! i = Some y → p x = q y) →
  findIndex p xs = findIndex q ys.
Proof.
  revert ys. induction xs as [|x xs IH]; intros [|y ys] Hlen H; simpl in *; try done.
  rewrite <- (H 0%nat x y eq_refl eq_refl).
  destruct (p x); [done|]. f_equal. apply IH; [lia|].
  intros i x' y' Hx Hy. by apply (H (S i)).
Qed.

Lemma bind_Normal {A B} (a : A) (k : A → completion B) : Normal a ≫= k = k a.
Proof. reflexivity. Qed.

Lemma filter_completion_Normal {A} (p : A → completion bool) (f : A → bool)
    (xs : list A) :
  (∀ x, x ∈ xs → p x = Normal (f x)) →
  filter_completion p xs = Normal (List.filter f xs).
Proof.
  induction xs as [|x xs IH]; intros H; simpl; [done|].
  rewrite (H x) by apply list_elem_of_here. simpl.
  rewrite IH by (intros y Hy; apply H; by apply list_elem_of_further). done.
Qed.

Lemma filter_completion_throws {A} (p : A → completion bool) (xs : list A) (x : A) :
  x ∈ xs → (∀ y e, p y = Throw e → e = TypeError) → p x = Throw TypeError →
  filter_completion p xs = Throw TypeError.
Proof.
  intros Hin Hty Hx. induction xs as [|y ys IH]; [by apply elem_of_nil in Hin|].
  simpl. apply elem_of_cons in Hin as [<-|Hin].
  - by rewrite Hx.
  - destruct (p y) as [b|e] eqn:Hy; simpl.
    + by rewrite IH.
    + by rewrite (Hty y e Hy).
Qed.


Lemma append_nil_l (t : string) : "" +:+ t = t.
Proof. reflexivity. Qed.





Lemma includes_empty (q : string) :
  includes "" q = true → ∀ s, includes s q = true.
Proof. destruct q; [|done]. intros _ s. by destruct s. Qed.







(** ** Identifiers

    A generated id is [card_], the clock reading in decimal, an underscore
    and nine characters of the random text: the reading and those nine
    characters can be read back from it. *)

Lemma plain_app (s t : string) : plain (s +:+ t) = plain s && plain t.
Proof. induction s as [|c s IH]; simpl; [done|]. rewrite IH. by rewrite andb_assoc. Qed.

Lemma plain_pretty_N_go (x : N) : ∀ s, plain s = true → plain (pretty_N_go x s) = true.
Proof.
  induction (N.lt_wf_0 x) as [x _ IH]; intros s Hs.
  assert (x = 0 ∨ 0 < x)%N as [->|Hx] by lia.
  - by rewrite pretty_N_go_0.
  - rewrite pretty_N_go_step by done. apply IH.
    + by apply N.div_lt.
    + simpl. rewrite Hs. unfold pretty_N_char. by repeat case_match.
Qed.

Lemma plain_pretty_N (x : N) : plain (pretty x) = true.
Proof.
  unfold pretty, pretty_N. case_decide; [done|]. by apply plain_pretty_N_go.
Qed.

Lemma plain_pretty_Z (z : Z) : plain (pretty z) = true.
Proof.
  destruct z as [|p|p]; unfold pretty, pretty_Z; simpl; [done| |];
    apply (plain_pretty_N (Npos p)).
Qed.

Lemma split_at_underscore (a a' b b' : string) :
  plain a = true → plain a' = true →
  a +:+ "_" +:+ b = a' +:+ "_" +:+ b' → a = a' ∧ b = b'.
Proof.
  revert a'. induction a as [|c a IH]; intros [|c' a'] Ha Ha' Heq; simpl in *.
  - by injection Heq.
  - injection Heq as <- _. by rewrite Ascii.eqb_refl in Ha'.
  - injection Heq as -> _. by rewrite Ascii.eqb_refl in Ha.
  - injection Heq as -> Heq.
    apply andb_prop in Ha as [_ Ha]. apply andb_prop in Ha' as [_ Ha'].
    destruct (IH a' Ha Ha' Heq) as [-> ->]. done.
Qed.

Lemma generateId_inj (now now' : Z) (random36 random36' : string) :
  generateId now random36 = generateId now' random36' →
  now = now' ∧ substr 2 9 random36 = substr 2 9 random36'.
Proof.
  unfold generateId. intros Heq. simpl in Heq. injection Heq as Heq.
  apply split_at_underscore in Heq as [Hnow Hrnd]; auto using plain_pretty_Z.
  split; [|done]. by apply (inj pretty).
Qed.

Lemma generateId_truthy (now : Z) (random36 : string) :
  truthy (VStr (generateId now random36)) = true.
Proof. done. Qed.

(** ** Lookup by id *)

Lemma getCard_Some (id : string) (s : DataStore) (c : Card) :
  getCard id s = Some c ↔
  ∃ index, findIndex (has_id id) (cards s) = Some index ∧ cards s !! index = Some c.
Proof.
  unfold getCard. rewrite find_findIndex.
  destruct (findIndex (has_id id) (cards s)) as [i|]; simpl.
  - split; [by exists i|]. by intros (? & [= <-] & ?).
  - split; [done|]. by intros (? & ? & ?).
Qed.

Lemma has_id_str (id id' : string) (c : Card) :
  c !! "id" = Some (VStr id') → has_id id c = String.eqb id' id.
Proof. unfold has_id. by intros ->. Qed.

Lemma has_id_card_id (id : string) (c : Card) :
  has_id id c = true ↔ c !! "id" = Some (VStr id).
Proof.
  unfold has_id, strict_eq_str. destruct (c !! "id") as [[]|]; try done.
  rewrite String.eqb_eq. split; congruence.
Qed.

Lemma ref_fields_spec (f : string) :
  f ∈ ref_fields ↔
  f = "adjacentLocations" ∨ f = "presentCharacters" ∨ f = "bonds".
Proof. unfold ref_fields. rewrite !elem_of_cons, elem_of_nil. tauto. Qed.

Lemma ref_fields_other (f : string) :
  f ∈ ref_fields → f ≠ "updatedAt" ∧ f ≠ "createdAt" ∧ f ≠ "id".
Proof. rewrite ref_fields_spec. intros [Hf|[Hf|Hf]]; by subst f. Qed.

Lemma NoDup_card_ids (cs : list Card) (ids : list string) :
  card_ids cs = (λ id, Some (VStr id)) <$> ids → NoDup ids → NoDup (card_ids cs).
Proof.
  intros -> Hids. apply NoDup_fmap_2; [|done]. intros x y H. by simplify_eq.
Qed.

Lemma not_elem_of_card_ids (cs : list Card) (ids : list string) (id : string) :
  card_ids cs = (λ id, Some (VStr id)) <$> ids → id ∉ ids →
  Some (VStr id) ∉ card_ids cs.
Proof.
  intros -> Hid Hin. apply list_elem_of_fmap in Hin as (id' & Heq & Hin).
  by simplify_eq.
Qed.

(** ** [createCard] *)

(** C5 (amended). [createCard] appends the new card at the end of the
    collection, returns it and leaves the history alone.  The caller's
    fields take precedence: the card has the generated id and the two time
    stamps only where the caller supplies none, [createdAt] from the first
    reading of the clock and [updatedAt] from the second.  The generated
    id differs from the id of every card in the store when no card has it
    yet, and two generated ids differ as soon as the clock readings or the
    nine random characters do. *)
Theorem createCard_spec (now : Z) (random36 : string) (t_created t_updated : Z)
    (cardData : Card) (s : DataStore) :
  let id := generateId now random36 in
  let card := (createCard now random36 t_created t_updated cardData s).1 in
  let s' := (createCard now random36 t_created t_updated cardData s).2 in
  cards s' = cards s ++ [card] ∧
  navigationHistory s' = navigationHistory s ∧
  (∀ f v, cardData !! f = Some v → card !! f = Some v) ∧
  (cardData !! "id" = None → card !! "id" = Some (VStr id)) ∧
  (cardData !! "createdAt" = None →
     card !! "createdAt" = Some (VStr (toISOString t_created))) ∧
  (cardData !! "updatedAt" = None →
     card !! "updatedAt" = Some (VStr (toISOString t_updated))) ∧
  (∀ f, f ≠ "id" → f ≠ "createdAt" → f ≠ "updatedAt" → card !! f = cardData !! f) ∧
  (cardData !! "id" = None → getCard id s = None →
     ∀ c, c ∈ cards s → c !! "id" ≠ card !! "id") ∧
  (∀ now' random36',
     (now' ≠ now ∨ substr 2 9 random36' ≠ substr 2 9 random36) →
     generateId now' random36' ≠ id).
Proof.
  cbv zeta. unfold createCard. simpl. split_and!; try done.
  - intros f v Hf. by apply lookup_union_Some_l.
  - intros Hid. rewrite lookup_union_r by done.
    by rewrite !lookup_insert_ne, lookup_singleton_eq.
  - intros Hc. rewrite lookup_union_r by done.
    by rewrite lookup_insert_ne, lookup_insert_eq.
  - intros Hu. rewrite lookup_union_r by done. by rewrite lookup_insert_eq.
  - intros f Hid Hc Hu. rewrite lookup_union_l; [done|].
    by rewrite !lookup_insert_ne, lookup_singleton_ne.
  - intros Hid Hget c Hc Heq.
    rewrite lookup_union_r in Heq by done.
    rewrite !lookup_insert_ne, lookup_singleton_eq in Heq by done.
    unfold getCard in Hget.
    pose proof (find_none _ _ Hget c) as Hnone.
    rewrite <- list_elem_of_In in Hnone. specialize (Hnone Hc).
    unfold has_id in Hnone. rewrite Heq in Hnone. simpl in Hnone.
    by rewrite String.eqb_refl in Hnone.
  - intros now' random36' Hne Heq. apply generateId_inj in Heq as [-> Heq].
    by destruct Hne.
Qed.

(** C5 fails as stated: an id that the caller supplies takes the place of
    the generated one and can be the id of a card in the store; two calls
    in the same millisecond whose random texts agree on their first nine
    digits generate the same id; and the two time stamps come from two
    readings of the clock, which can differ. *)
Lemma createCard_collision :
  (let s := (createCard 1 "0.aaa" 1 1 {["id" := VStr "x"; "name" := VStr "A"]}
               empty_store).2 in
   let card := (createCard 2 "0.bbb" 2 2 {["id" := VStr "x"; "name" := VStr "B"]} s).1 in
   ∃ c, c ∈ cards s ∧ c !! "id" = card !! "id") ∧
  (let s := (createCard 7 "0.abcdefghi1" 7 7 {["name" := VStr "A"]} empty_store).2 in
   let card := (createCard 7 "0.abcdefghi2" 7 7 {["name" := VStr "B"]} s).1 in
   ∃ c, c ∈ cards s ∧ c !! "id" = card !! "id") ∧
  (let card := (createCard 7 "0.aaa" 7 8 {["name" := VStr "A"]} empty_store).1 in
   card !! "createdAt" ≠ card !! "updatedAt").
Proof.
  split_and!; cbv zeta.
  - eexists. split; [apply list_elem_of_here|]. vm_compute. reflexivity.
  - eexists. split; [apply list_elem_of_here|]. vm_compute. reflexivity.
  - vm_compute. discriminate.
Qed.

(** ** [updateCard] *)

(** C6. Update merge: for the id of an existing card and a single-field
    partial [{x: v}], [updateCard] returns the updated card and stores it
    in the place of the old one; the card has [v] in field [x], the time of
    the update in [updatedAt], and in every other field, [createdAt]
    included, what the old card had. *)
Theorem updateCard_single_field (now : Z) (id x : string) (v : value)
    (s : DataStore) (old : Card) :
  getCard id s = Some old →
  ∃ index,
    findIndex (has_id id) (cards s) = Some index ∧
    cards s !! index = Some old ∧
    let card := <["updatedAt" := VStr (toISOString now)]> (<[x := v]> old) in
    updateCard now id {[x := v]} s =
      (Some card, mkDataStore (<[index := card]> (cards s)) (navigationHistory s)) ∧
    (x ≠ "updatedAt" → card !! x = Some v) ∧
    card !! "updatedAt" = Some (VStr (toISOString now)) ∧
    (∀ f, f ≠ x → f ≠ "updatedAt" → card !! f = old !! f) ∧
    (x ≠ "createdAt" → card !! "createdAt" = old !! "createdAt").
Proof.
  intros Hget. apply getCard_Some in Hget as (index & Hfind & Hold).
  exists index. do 2 (split; [done|]). cbv zeta. split_and!.
  - unfold updateCard. rewrite Hfind, Hold.
    by rewrite <- insert_union_singleton_l.
  - intros Hx. rewrite lookup_insert_ne by done. by rewrite lookup_insert_eq.
  - by rewrite lookup_insert_eq.
  - intros f Hfx Hfu. by rewrite !lookup_insert_ne.
  - intros Hx. by rewrite !lookup_insert_ne.
Qed.

(** The tavern is renamed. *)
Lemma updateCard_single_field_witness :
  (updateCard 5 "t" {["name" := VStr "Inn"]} world).1 =
    Some (<["updatedAt" := VStr (toISOString 5)]> (<["name" := VStr "Inn"]> tavern)).
Proof.
  destruct (updateCard_single_field 5 "t" "name" (VStr "Inn") world tavern)
    as (index & _ & _ & Hupd & _).
  - vm_compute. reflexivity.
  - cbv zeta in Hupd. rewrite Hupd. reflexivity.
Defined.

(** ** [deleteCard] *)

Lemma strip_field_Normal (id f : string) (c c' : Card) :
  strip_field id f c = Normal c' →
  ∀ g, c' !! g =
    if decide (g = f) then
      match c !! f with
      | Some (VArr xs) => Some (VArr (List.filter (strict_ne_str id) xs))
      | ov => ov
      end
    else c !! g.
Proof.
  unfold strip_field. intros H g.
  destruct (c !! f) as [v|] eqn:Hf.
  - destruct (truthy v) eqn:Hv.
    + destruct v; simplify_eq/=.
      destruct (decide (g = f)) as [->|Hne];
        [by rewrite lookup_insert_eq|by rewrite lookup_insert_ne].
    + simplify_eq. destruct (decide (g = f)) as [->|Hne]; [|done].
      rewrite Hf. by destruct v.
  - simplify_eq. destruct (decide (g = f)) as [->|Hne]; done.
Qed.

Lemma strip_card_Normal (id : string) (c c' : Card) (r : unit) :
  strip_card id c = (Normal r, c') → stripped id c c'.
Proof.
  unfold strip_card. intros H.
  destruct (strip_field id "adjacentLocations" c) as [c1|] eqn:H1; [|done].
  destruct (strip_field id "presentCharacters" c1) as [c2|] eqn:H2; [|done].
  destruct (strip_field id "bonds" c2) as [c3|] eqn:H3; [|done].
  simplify_eq. intros f.
  rewrite (strip_field_Normal _ _ _ _ H3 f).
  pose proof (strip_field_Normal _ _ _ _ H2) as E2.
  pose proof (strip_field_Normal _ _ _ _ H1) as E1.
  unfold stripped_field, ref_fields.
  destruct (decide (f = "bonds")) as [->|Hb].
  { rewrite (E2 "bonds"), (E1 "bonds"). simpl. by destruct (c !! "bonds") as [[]|]. }
  rewrite (E2 f).
  destruct (decide (f = "presentCharacters")) as [->|Hp].
  { rewrite (E1 "presentCharacters"). simpl.
    by destruct (c !! "presentCharacters") as [[]|]. }
  rewrite (E1 f).
  destruct (decide (f = "adjacentLocations")) as [->|Ha].
  { by destruct (c !! "adjacentLocations") as [[]|]. }
  destruct (c !! f) as [[]|]; try done.
  rewrite bool_decide_eq_false_2; [done|].
  rewrite !elem_of_cons, elem_of_nil. tauto.
Qed.

Lemma strip_all_Normal (id : string) (cs cs' : list Card) (r : unit) :
  strip_all id cs = (Normal r, cs') → Forall2 (stripped id) cs cs'.
Proof.
  revert cs'. induction cs as [|c cs IH]; intros cs' H; simpl in H.
  - simplify_eq. constructor.
  - destruct (strip_card id c) as [[u|e] c'] eqn:Hc; [|done].
    destruct (strip_all id cs) as [r' rest'] eqn:Hrest. simplify_eq.
    constructor; [by eapply strip_card_Normal|]. by apply (IH rest').
Qed.

Lemma deleteCard_true (id : string) (s s' : DataStore) :
  deleteCard id s = (Normal true, s') →
  ∃ index,
    findIndex (has_id id) (cards s) = Some index ∧
    Forall2 (stripped id) (delete index (cards s)) (cards s') ∧
    navigationHistory s' = navigationHistory s.
Proof.
  unfold deleteCard. intros H.
  destruct (findIndex (has_id id) (cards s)) as [index|] eqn:Hfind; [|done].
  destruct (strip_all id (cards s)) as [[u|e] cs] eqn:Hstrip; [|done].
  simplify_eq. exists index. split_and!; [done| |done].
  simpl. apply Forall2_delete. by eapply strip_all_Normal.
Qed.

Lemma filter_strict_ne (id : string) (xs : list value) (v : value) :
  v ∈ List.filter (strict_ne_str id) xs ↔ v ∈ xs ∧ v ≠ VStr id.
Proof.
  rewrite !list_elem_of_In, filter_In. unfold strict_ne_str, strict_eq_str.
  split; intros [Hin Hne]; (split; [done|]).
  - intros ->. by rewrite String.eqb_refl in Hne.
  - destruct v; try done. apply negb_true_iff, String.eqb_neq. congruence.
Qed.

Lemma stripped_has_id (id id' : string) (c c' : Card) :
  stripped id c c' → has_id id' c' = has_id id' c.
Proof.
  intros H. unfold has_id. rewrite (H "id"). unfold stripped_field.
  by destruct (c !! "id") as [[]|].
Qed.

(** C10. Frame of the delete cascade: after a successful [deleteCard] the
    collection is the old one without the deleted position, in the same
    order, and the history is untouched; each remaining card keeps its
    [updatedAt] and every field other than the three reference fields, and
    a reference field is either unchanged or a list that has lost the
    entries equal to the deleted id. *)
Theorem deleteCard_frame (id : string) (s s' : DataStore) :
  deleteCard id s = (Normal true, s') →
  ∃ index,
    findIndex (has_id id) (cards s) = Some index ∧
    length (cards s') = (length (cards s) - 1)%nat ∧
    navigationHistory s' = navigationHistory s ∧
    ∀ k c', cards s' !! k = Some c' →
      ∃ c, delete index (cards s) !! k = Some c ∧
        c' !! "updatedAt" = c !! "updatedAt" ∧
        (∀ f, f ∉ ref_fields → c' !! f = c !! f) ∧
        (∀ f, f ∈ ref_fields →
           c' !! f = c !! f ∨
           ∃ xs, c !! f = Some (VArr xs) ∧
                 c' !! f = Some (VArr (List.filter (strict_ne_str id) xs))).
Proof.
  intros H. apply deleteCard_true in H as (index & Hfind & Hrel & Hhist).
  exists index. split_and!; [done| |done|].
  - rewrite <- (Forall2_length _ _ _ Hrel), length_delete; [done|].
    apply findIndex_Some in Hfind as [(c & Hc & _) _]. by exists c.
  - intros k c' Hk.
    destruct (Forall2_lookup_r _ _ _ _ _ Hrel Hk) as (c & Hc & Hcc').
    exists c. split_and!; [done|..].
    + rewrite (Hcc' "updatedAt"). unfold stripped_field.
      by destruct (c !! "updatedAt") as [[]|].
    + intros f Hf. rewrite (Hcc' f). unfold stripped_field.
      destruct (c !! f) as [[]|]; try done. by rewrite bool_decide_eq_false_2.
    + intros f Hf. rewrite (Hcc' f). unfold stripped_field.
      destruct (c !! f) as [[]|]; auto. rewrite bool_decide_eq_true_2 by done.
      right. eauto.
Qed.

(** The market is deleted from the sample world. *)
Lemma deleteCard_frame_witness :
  length (cards (deleteCard "m" world).2) = 2%nat ∧
  navigationHistory (deleteCard "m" world).2 = navigationHistory world.
Proof.
  destruct (deleteCard_frame "m" world (deleteCard "m" world).2)
    as (index & _ & Hlen & Hhist & _).
  - vm_compute. reflexivity.
  - split; [exact Hlen|exact Hhist].
Defined.

(** C1 (amended). After [deleteCard] of the id of a card of the store
    succeeds, no reference list of a remaining card holds that id; and
    [getCard] finds nothing under the id exactly when the store held no
    second card with it. *)
Theorem deleteCard_cascade (id : string) (C : Card) (s s' : DataStore) :
  C ∈ cards s →
  C !! "id" = Some (VStr id) →
  deleteCard id s = (Normal true, s') →
  (∀ R f xs, R ∈ cards s' → f ∈ ref_fields → R !! f = Some (VArr xs) →
     VStr id ∉ xs) ∧
  (only_card_with_id id s ↔ getCard id s' = None).
Proof.
  intros HC Hid H. apply deleteCard_true in H as (index & Hfind & Hrel & Hhist).
  split.
  - intros R f xs HR Hf HRf.
    apply list_elem_of_lookup in HR as [k Hk].
    destruct (Forall2_lookup_r _ _ _ _ _ Hrel Hk) as (c & Hc & Hcc').
    rewrite (Hcc' f) in HRf. unfold stripped_field in HRf.
    destruct (c !! f) as [[]|]; simplify_eq.
    rewrite bool_decide_eq_true_2 in HRf by done. simplify_eq.
    rewrite filter_strict_ne. by intros [_ Hne].
  - pose proof Hfind as Hfind'.
    apply findIndex_Some in Hfind' as [(c0 & Hc0 & Hp0) Hfirst].
    unfold getCard. split.
    + intros Huniq.
      destruct (List.find (has_id id) (cards s')) as [c'|] eqn:Hfound; [|done].
      exfalso. apply find_some in Hfound as [Hin Hp].
      apply list_elem_of_In, list_elem_of_lookup in Hin as [k Hk].
      destruct (Forall2_lookup_r _ _ _ _ _ Hrel Hk) as (c & Hc & Hcc').
      rewrite (stripped_has_id _ _ _ _ Hcc') in Hp.
      destruct (decide (k < index)%nat) as [Hlt|Hge].
      * rewrite list_lookup_delete_lt in Hc by done.
        specialize (Huniq _ _ _ _ Hc Hc0 Hp Hp0). lia.
      * rewrite list_lookup_delete_ge in Hc by lia.
        specialize (Huniq _ _ _ _ Hc Hc0 Hp Hp0). lia.
    + intros Hnone i j ci cj Hi Hj Hpi Hpj.
      assert (Honly : ∀ k ck, cards s !! k = Some ck → has_id id ck = true → k = index).
      { intros k ck Hk Hpk. destruct (decide (k = index)) as [|Hne]; [done|exfalso].
        assert (∃ k', delete index (cards s) !! k' = Some ck) as [k' Hk'].
        { destruct (decide (k < index)%nat).
          - exists k. by rewrite list_lookup_delete_lt.
          - exists (k - 1)%nat. rewrite list_lookup_delete_ge by lia.
            by replace (S (k - 1)) with k by lia. }
        destruct (Forall2_lookup_l _ _ _ _ _ Hrel Hk') as (c' & Hc' & Hcc').
        pose proof (find_none _ _ Hnone c') as Hn.
        rewrite <- list_elem_of_In in Hn.
        rewrite (stripped_has_id _ _ _ _ Hcc') in Hn.
        rewrite Hn in Hpk; [done|]. apply list_elem_of_lookup. eauto. }
      rewrite (Honly _ _ Hi Hpi), (Honly _ _ Hj Hpj). done.
Qed.

(** The market is deleted from the sample world: the tavern no longer
    lists it. *)
Lemma deleteCard_cascade_witness :
  (∀ R f xs, R ∈ cards (deleteCard "m" world).2 → f ∈ ref_fields →
     R !! f = Some (VArr xs) → VStr "m" ∉ xs) ∧
  (only_card_with_id "m" world ↔ getCard "m" (deleteCard "m" world).2 = None).
Proof.
  apply (deleteCard_cascade "m" market world).
  - apply list_elem_of_further, list_elem_of_here.
  - reflexivity.
  - vm_compute. reflexivity.
Defined.

(** C1 fails as stated: two cards imported from a document that has them
    under one id share their new id; deleting that id succeeds, removes the
    first of them, and [getCard] finds the second. *)
Lemma deleteCard_duplicate_id :
  let id := fresh_id env_distinct 1 in
  (∃ C, C ∈ cards twins ∧ C !! "id" = Some (VStr id)) ∧
  (deleteCard id twins).1 = Normal true ∧
  getCard id (deleteCard id twins).2 ≠ None.
Proof.
  cbv zeta. split_and!.
  - eexists. split; [apply list_elem_of_here|]. vm_compute. reflexivity.
  - vm_compute. reflexivity.
  - intros H.
    assert (H0 : getCard (fresh_id env_distinct 1)
                   (deleteCard (fresh_id env_distinct 1) twins).2
                   ≫= (λ c, c !! "name") = Some (VStr "B"))
      by (vm_compute; reflexivity).
    rewrite H in H0. discriminate H0.
Qed.

Lemma strip_field_typed (id f : string) (c : Card) :
  id_list (c !! f) = true → ∃ c', strip_field id f c = Normal c' ∧
    ∀ g, g ≠ f → c' !! g = c !! g.
Proof.
  unfold strip_field, id_list. intros H.
  destruct (c !! f) as [[| | | |xs| |]|]; try done.
  - eexists. split; [done|]. intros g Hg. by rewrite lookup_insert_ne.
  - by exists c.
Qed.

Lemma strip_card_typed (id : string) (c : Card) :
  forallb (λ f, id_list (c !! f)) ref_fields = true →
  ∃ c', strip_card id c = (Normal (), c').
Proof.
  simpl. rewrite !andb_true_iff. intros (Ha & Hp & Hb & _). unfold strip_card.
  destruct (strip_field_typed id "adjacentLocations" c Ha) as (c1 & -> & E1).
  destruct (strip_field_typed id "presentCharacters" c1) as (c2 & -> & E2).
  { by rewrite E1. }
  destruct (strip_field_typed id "bonds" c2) as (c3 & -> & E3).
  { by rewrite E2, E1. }
  by exists c3.
Qed.

Lemma strip_all_typed (id : string) (cs : list Card) :
  Forall (λ c, forallb (λ f, id_list (c !! f)) ref_fields = true) cs →
  ∃ cs', strip_all id cs = (Normal (), cs').
Proof.
  induction 1 as [|c cs Hc Hcs [cs' IH]]; [by exists []|].
  destruct (strip_card_typed id c Hc) as [c' Hc'].
  exists (c' :: cs'). simpl. by rewrite Hc', IH.
Qed.

(** On a store whose reference fields hold lists, deleting the id of a
    card of the store succeeds. *)
Lemma deleteCard_succeeds (id : string) (C : Card) (s : DataStore) :
  Forall (λ c, forallb (λ f, id_list (c !! f)) ref_fields = true) (cards s) →
  C ∈ cards s → C !! "id" = Some (VStr id) →
  ∃ s', deleteCard id s = (Normal true, s').
Proof.
  intros Hty HC Hid. unfold deleteCard.
  destruct (findIndex (has_id id) (cards s)) as [index|] eqn:Hfind.
  - destruct (strip_all_typed id (cards s) Hty) as [cs' ->]. eauto.
  - exfalso. rewrite findIndex_None in Hfind. specialize (Hfind C HC).
    apply has_id_card_id in Hid. congruence.
Qed.

(** ** [searchCards] *)


Lemma search_match_searchable (query : string) (c : Card) :
  searchable c = true →
  search_match (toLowerCase query) c = Normal (card_matchesb query c).
Proof.
  unfold searchable, search_match, card_matchesb. intros H.
  destruct (c !! "name") as [[| | |name| | |]|]; try done.
  destruct (includes (toLowerCase name) (toLowerCase query)) eqn:Hn; [done|].
  simpl. destruct (c !! "description") as [[| | |d| | |]|]; simpl in *;
    try done; try (by rewrite (negb_true_iff _).1).
  - by destruct b.
  - apply negb_true_iff in H. by rewrite H.
  - destruct (negb (d =? "")%string) eqn:Hd; [done|].
    apply negb_false_iff, String.eqb_eq in Hd as ->.
    destruct (includes (toLowerCase "") (toLowerCase query)) eqn:Hq; [|done].
    by rewrite (includes_empty _ Hq) in Hn.
Qed.

Lemma search_match_throws (q : string) (c : Card) (e : exn) :
  search_match q c = Throw e → e = TypeError.
Proof.
  unfold search_match. intros H.
  repeat (case_match; simplify_eq/=); done.
Qed.

Lemma sublist_List_filter {A} (p : A → bool) (xs : list A) :
  sublist (List.filter p xs) xs.
Proof.
  induction xs as [|x xs IH]; simpl; [constructor|].
  destruct (p x); by constructor.
Qed.



(** C9. [searchCards] throws a [TypeError], whatever the query, on every
    store that holds a card without a name; and [createCard], which checks
    nothing, makes such a store of any field set without a name. *)
Theorem searchCards_nameless (query : string) :
  (∀ (s : DataStore) (c : Card),
     c ∈ cards s → c !! "name" = None → searchCards query s = Throw TypeError) ∧
  (∀ now random36 t_created t_updated (cardData : Card) (s : DataStore),
     cardData !! "name" = None →
     searchCards query (createCard now random36 t_created t_updated cardData s).2
       = Throw TypeError).
Proof.
  assert (Hgen : ∀ (s : DataStore) (c : Card),
    c ∈ cards s → c !! "name" = None → searchCards query s = Throw TypeError).
  { intros s c Hin Hname. unfold searchCards.
    apply (filter_completion_throws _ _ c); [done| |].
    - intros y e. apply search_match_throws.
    - unfold search_match. by rewrite Hname. }
  split; [done|].
  intros now random36 t_created t_updated cardData s Hname.
  apply (Hgen _ (createCard now random36 t_created t_updated cardData s).1).
  - simpl. apply elem_of_app. right. apply list_elem_of_singleton. done.
  - simpl. rewrite lookup_union_r by done.
    by rewrite !lookup_insert_ne, lookup_singleton_ne.
Qed.

(** A card created with a type only. *)
Lemma searchCards_nameless_witness :
  searchCards "tavern" nameless = Throw TypeError.
Proof.
  apply (proj2 (searchCards_nameless "tavern")). reflexivity.
Defined.

(** ** Navigation history *)

Lemma pushToHistory_last (id : string) (s : DataStore) :
  (length (navigationHistory s) ≤ 20)%nat →
  navigationHistory (pushToHistory id s) = last_n 20 (navigationHistory s ++ [id]).
Proof.
  intros Hlen. unfold pushToHistory, last_n. simpl.
  rewrite length_app. simpl.
  destruct (Nat.ltb_spec 20 (length (navigationHistory s) + 1)) as [H|H].
  - replace (length (navigationHistory s) + 1 - 20)%nat with 1%nat by lia. done.
  - replace (length (navigationHistory s) + 1 - 20)%nat with 0%nat by lia. done.
Qed.

Lemma last_n_length {A} (n : nat) (xs : list A) :
  length (last_n n xs) = Nat.min n (length xs).
Proof. unfold last_n. rewrite length_drop. lia. Qed.

Lemma last_n_app_last {A} (n : nat) (xs ys : list A) :
  last_n n (last_n n xs ++ ys) = last_n n (xs ++ ys).
Proof.
  unfold last_n.
  rewrite <- drop_app_le by lia.
  rewrite drop_drop, length_drop, !length_app.
  f_equal. lia.
Qed.

Lemma pushAll_history (ids : list string) : ∀ s : DataStore,
  (length (navigationHistory s) ≤ 20)%nat →
  navigationHistory (pushAll ids s) = last_n 20 (navigationHistory s ++ ids).
Proof.
  induction ids as [|id ids IH]; intros s Hlen; simpl.
  - rewrite app_nil_r. unfold last_n.
    by replace (length (navigationHistory s) - 20)%nat with 0%nat by lia.
  - rewrite IH.
    + rewrite pushToHistory_last by done.
      rewrite last_n_app_last. by rewrite <- app_assoc.
    + rewrite pushToHistory_last by done. rewrite last_n_length. lia.
Qed.

Lemma pushAll_cards (ids : list string) : ∀ s : DataStore,
  cards (pushAll ids s) = cards s.
Proof. induction ids as [|id ids IH]; intros s; simpl; [done|]. by rewrite IH. Qed.

(** C7. History bound: after 25 distinct ids are pushed into the history
    of a new store, the history is the 20 ids pushed last, in push order;
    none of the 5 pushed first is in it. *)
Theorem history_bound (ids : list string) :
  length ids = 25%nat →
  NoDup ids →
  let h := navigationHistory (pushAll ids empty_store) in
  h = drop 5 ids ∧
  length h = 20%nat ∧
  (∀ id, id ∈ take 5 ids → id ∉ h) ∧
  (∀ id, id ∈ drop 5 ids → id ∈ h).
Proof.
  intros Hlen Hnodup h.
  assert (Hh : h = drop 5 ids).
  { subst h. rewrite pushAll_history by (simpl; lia).
    simpl. unfold last_n. by rewrite Hlen. }
  rewrite Hh. split_and!; [done| |  |done].
  - rewrite length_drop. lia.
  - intros id Hin Hin'.
    rewrite <- (take_drop 5 ids) in Hnodup.
    apply NoDup_app in Hnodup as (_ & Hdisj & _). by eapply Hdisj.
Qed.

(** Twenty-five ids, [c01] to [c25]. *)
Lemma history_bound_witness :
  navigationHistory (pushAll ids25 empty_store) = drop 5 ids25.
Proof.
  apply (history_bound ids25).
  - reflexivity.
  - apply (bool_decide_unpack _). vm_compute. exact I.
Defined.

(** ** [importCards] *)

(** C4. Malformed import: when the file does not parse, or what it parses
    to has no [cards] property that is an array, the import ends with the
    error toast and the store is the one it started from. *)
Theorem importCards_malformed (ui : Ui) (env : ImportEnv)
    (parsed : completion value) (s : DataStore) :
  malformed parsed = true →
  importCards ui env parsed s = (ToastError, s).
Proof.
  unfold malformed, importCards, import_try. intros H.
  destruct parsed as [data|e]; [|done].
  apply negb_true_iff in H.
  destruct data as [| | | | |o|]; simpl in *; try done.
  destruct (o !! "cards") as [[]|]; simpl in *; done.
Qed.

(** The two documents of the specification, and a file that is no JSON. *)
Lemma importCards_malformed_witness :
  importCards page_all env_distinct
    (Normal (VObj {["cards" := VStr "not-an-array"]})) world = (ToastError, world) ∧
  importCards page_all env_distinct (Normal (VObj ∅)) world = (ToastError, world) ∧
  importCards page_all env_distinct (Throw SyntaxError) world = (ToastError, world).
Proof.
  split_and!; apply importCards_malformed; vm_compute; reflexivity.
Defined.

Lemma typed_card_id (c : Card) :
  typed_card c = true → ∃ id, c !! "id" = Some (VStr id) ∧ card_id c = Some id.
Proof.
  unfold typed_card. intros H. apply andb_prop in H as [H _].
  apply bool_decide_eq_true in H as [id Hid]. exists id. split; [|done].
  unfold card_id in Hid. by destruct (c !! "id") as [[]|]; simplify_eq.
Qed.

Lemma typed_card_refs (c : Card) (f : string) :
  typed_card c = true → f ∈ ref_fields → id_list (c !! f) = true.
Proof.
  unfold typed_card. intros H Hf. apply andb_prop in H as [_ H].
  rewrite forallb_forall in H. apply H. by apply list_elem_of_In.
Qed.

Lemma map_completion_strings (m : gmap string string) (xs : list value) :
  forallb is_string xs = true →
  map_completion (remap_ref m) xs = Normal (remap_value m <$> xs).
Proof.
  induction xs as [|x xs IH]; simpl; [done|].
  intros H. apply andb_prop in H as [Hx Hxs]. rewrite (IH Hxs).
  by destruct x.
Qed.

Lemma remap_field_typed (m : gmap string string) (f : string) (c : Card) :
  id_list (c !! f) = true →
  ∃ c', remap_field m f c = Normal c' ∧
        ∀ g, c' !! g = if decide (g = f) then remapped_field m (c !! f) else c !! g.
Proof.
  unfold remap_field, id_list. intros H.
  destruct (c !! f) as [v|] eqn:Hf.
  - destruct v as [| | | |xs| |]; try done. simpl.
    rewrite (map_completion_strings _ _ H). simpl. eexists. split; [done|].
    intros g. destruct (decide (g = f)) as [->|Hne];
      [by rewrite lookup_insert_eq|by rewrite lookup_insert_ne].
  - exists c. split; [done|]. intros g. destruct (decide (g = f)) as [->|Hne]; done.
Qed.

Lemma import_card_typed (env : ImportEnv) (k : nat) (m : gmap string string)
    (c : Card) :
  typed_card c = true →
  (∀ id, card_id c = Some id → is_Some (idMapping_get m id)) →
  ∃ c', import_card env k m (VObj c) = Normal c' ∧
        ∀ f, c' !! f = imported_field env k m c f.
Proof.
  intros Hc Hm. destruct (typed_card_id c Hc) as (id & Hid & Hcid).
  destruct (Hm id Hcid) as [newId HnewId].
  unfold import_card. simpl. rewrite Hid. simpl. rewrite HnewId. simpl.
  set (c0 := <["id" := newId]> c).
  assert (Hc0 : ∀ g, g ≠ "id" → c0 !! g = c !! g).
  { intros g Hg. unfold c0. by rewrite lookup_insert_ne. }
  destruct (remap_field_typed m "adjacentLocations" c0) as (c1 & -> & E1).
  { rewrite Hc0 by done. apply typed_card_refs; [done|]. apply ref_fields_spec; auto. }
  rewrite bind_Normal.
  destruct (remap_field_typed m "presentCharacters" c1) as (c2 & -> & E2).
  { rewrite E1, decide_False, Hc0 by done.
    apply typed_card_refs; [done|]. apply ref_fields_spec; auto. }
  rewrite bind_Normal.
  destruct (remap_field_typed m "bonds" c2) as (c3 & -> & E3).
  { rewrite E2, decide_False, E1, decide_False, Hc0 by done.
    apply typed_card_refs; [done|]. apply ref_fields_spec; auto. }
  rewrite bind_Normal.
  eexists. split; [done|].
  intros f. unfold imported_field, ref_fields.
  destruct (decide (f = "updatedAt")) as [->|Hu]; [by rewrite lookup_insert_eq|].
  rewrite lookup_insert_ne by done.
  destruct (decide (f = "createdAt")) as [->|Hcr]; [by rewrite lookup_insert_eq|].
  rewrite lookup_insert_ne by done.
  rewrite E3. destruct (decide (f = "bonds")) as [->|Hb].
  { rewrite E2, decide_False, E1, decide_False, Hc0 by done.
    by rewrite decide_True by (apply ref_fields_spec; auto). }
  rewrite E2. destruct (decide (f = "presentCharacters")) as [->|Hp].
  { rewrite E1, decide_False, Hc0 by done. by rewrite decide_True by (apply ref_fields_spec; auto). }
  rewrite E1. destruct (decide (f = "adjacentLocations")) as [->|Ha].
  { rewrite Hc0 by done. by rewrite decide_True by (apply ref_fields_spec; auto). }
  rewrite decide_False by (rewrite ref_fields_spec; tauto).
  destruct (decide (f = "id")) as [->|Hi].
  - unfold c0. rewrite lookup_insert_eq, Hcid. simpl. by rewrite HnewId.
  - by apply Hc0.
Qed.

Lemma typed_entry_inv (e : value) :
  typed_entry e = true →
  ∃ c id, e = VObj c ∧ typed_card c = true ∧ c !! "id" = Some (VStr id) ∧
          entry_id e = Some id.
Proof.
  destruct e as [| | | | |c|]; try done. simpl. intros H.
  destruct (typed_card_id c H) as (id & Hid & Hcid). by exists c, id.
Qed.

Lemma first_pass_typed (env : ImportEnv) (entries : list value) :
  ∀ (k0 : nat) (m0 : gmap string string),
  Forall (λ e, typed_entry e = true) entries →
  ∃ m, first_pass env k0 entries m0 = Normal m ∧
    (∀ key newId, m !! key = Some newId →
       m0 !! key = Some newId ∨
       ∃ j e, entries !! j = Some e ∧ entry_id e = Some key ∧
              newId = fresh_id env (k0 + j)) ∧
    (∀ key, is_Some (m0 !! key) → is_Some (m !! key)) ∧
    (∀ j e key, entries !! j = Some e → entry_id e = Some key →
       key ≠ "__proto__" → is_Some (m !! key)).
Proof.
  induction entries as [|e rest IH]; intros k0 m0 Hty.
  - exists m0. split_and!; [done|by left|done|].
    intros j e key Hj. by rewrite lookup_nil in Hj.
  - apply Forall_cons in Hty as [He Hrest].
    destruct (typed_entry_inv e He) as (c & id & -> & Hc & Hid & Heid).
    simpl. rewrite Hid. simpl.
    destruct (IH (S k0) (idMapping_set id (fresh_id env k0) m0) Hrest)
      as (m & -> & Hprov & Hmono & Hdom).
    exists m. split_and!; [done|..].
    + intros key newId Hkey. destruct (Hprov key newId Hkey) as [H|(j & e & Hj & He' & ->)].
      * unfold idMapping_set in H. destruct (String.eqb id "__proto__"); [by left|].
        destruct (decide (id = key)) as [->|Hne].
        -- rewrite lookup_insert_eq in H. simplify_eq. right.
           exists 0%nat, (VObj c). by rewrite Nat.add_0_r.
        -- rewrite lookup_insert_ne in H by done. by left.
      * right. exists (S j), e. split_and!; [done|done|]. f_equal. lia.
    + intros key Hkey. apply Hmono. unfold idMapping_set.
      destruct (String.eqb id "__proto__"); [done|].
      destruct (decide (id = key)) as [->|Hne];
        [by rewrite lookup_insert_eq|by rewrite lookup_insert_ne].
    + intros [|j] e key Hj He' Hkey; simpl in Hj.
      * simplify_eq. apply Hmono. unfold idMapping_set.
        rewrite (proj2 (String.eqb_neq _ _)) by done.
        by rewrite lookup_insert_eq.
      * by eapply Hdom.
Qed.

Lemma second_pass_Normal (env : ImportEnv) (m : gmap string string)
    (entries : list value) :
  ∀ (k0 : nat) (cs0 : list Card) (n0 : nat),
  (∀ j e, entries !! j = Some e →
     ∃ c', import_card env (k0 + j) m e = Normal c') →
  ∃ new,
    second_pass env k0 m entries cs0 n0 =
      (Normal (n0 + length entries)%nat, cs0 ++ new) ∧
    length new = length entries ∧
    ∀ j e, entries !! j = Some e →
      ∃ c', new !! j = Some c' ∧ import_card env (k0 + j) m e = Normal c'.
Proof.
  induction entries as [|e rest IH]; intros k0 cs0 n0 Hok.
  - exists []. simpl. rewrite app_nil_r, Nat.add_0_r. split_and!; [done|done|].
    intros j e Hj. by rewrite lookup_nil in Hj.
  - simpl. destruct (Hok 0%nat e eq_refl) as [c' Hc']. rewrite Nat.add_0_r in Hc'.
    rewrite Hc'.
    destruct (IH (S k0) (cs0 ++ [c']) (S n0)) as (new & -> & Hlen & Hnew).
    { intros j e' Hj. destruct (Hok (S j) e' Hj) as [c'' Hc''].
      exists c''. by replace (S k0 + j)%nat with (k0 + S j)%nat by lia. }
    exists (c' :: new). split_and!.
    + rewrite <- app_assoc. simpl. do 2 f_equal. lia.
    + simpl. by rewrite Hlen.
    + intros [|j] e' Hj; simpl in Hj.
      * simplify_eq. exists c'. by rewrite Nat.add_0_r.
      * destruct (Hnew j e' Hj) as (c'' & Hc'' & Himp). exists c''.
        split; [done|]. by replace (k0 + S j)%nat with (S k0 + j)%nat by lia.
Qed.

Lemma idMapping_get_is_Some (m : gmap string string) (id : string) :
  (id ≠ "__proto__" → is_Some (m !! id)) → is_Some (idMapping_get m id).
Proof.
  intros H. unfold idMapping_get. destruct (m !! id) as [newId|] eqn:Hm; [done|].
  destruct (decide (id = "__proto__")) as [->|Hne]; [done|].
  destruct (H Hne) as [? ?]. done.
Qed.

(** *** The sorting of the list *)

Lemma insert_by_Normal {A} (cmp : A → A → completion Z) (x : A) (ys zs : list A) :
  insert_by cmp x ys = Normal zs → zs ≡ₚ x :: ys.
Proof.
  revert zs. induction ys as [|y ys IH]; intros zs; simpl.
  - by intros [= <-].
  - destruct (cmp x y) as [v|e]; simpl; [|done].
    destruct (v <=? 0); [by intros [= <-]|].
    destruct (insert_by cmp x ys) as [zs'|e]; simpl; [|done].
    intros [= <-]. rewrite (IH zs' eq_refl). apply Permutation_swap.
Qed.

Lemma insert_by_Throw {A} (cmp : A → A → completion Z) (x : A) (ys : list A)
    (e : exn) :
  insert_by cmp x ys = Throw e → ∃ y, y ∈ ys ∧ cmp x y = Throw e.
Proof.
  induction ys as [|y ys IH]; simpl; [done|].
  destruct (cmp x y) as [v|e'] eqn:Hxy; simpl.
  - destruct (v <=? 0); [done|].
    destruct (insert_by cmp x ys) as [zs'|e']; simpl; [done|].
    intros [= ->]. destruct (IH eq_refl) as (y' & Hy' & Hc).
    exists y'. split; [by apply list_elem_of_further|done].
  - intros [= ->]. exists y. split; [apply list_elem_of_here|done].
Qed.

Lemma sort_by_Normal {A} (cmp : A → A → completion Z) (xs ys : list A) :
  sort_by cmp xs = Normal ys → ys ≡ₚ xs.
Proof.
  revert ys. induction xs as [|x xs IH]; intros ys; simpl.
  - by intros [= <-].
  - destruct (sort_by cmp xs) as [zs|e]; simpl; [|done].
    intros H. apply insert_by_Normal in H. rewrite H. by rewrite (IH zs eq_refl).
Qed.

Lemma sort_by_Throw {A} (cmp : A → A → completion Z) (xs : list A) (e : exn) :
  sort_by cmp xs = Throw e → ∃ a b, a ∈ xs ∧ b ∈ xs ∧ cmp a b = Throw e.
Proof.
  induction xs as [|x xs IH]; simpl; [done|].
  destruct (sort_by cmp xs) as [zs|e'] eqn:Hxs; simpl.
  - intros H. apply insert_by_Throw in H as (y & Hy & Hc).
    exists x, y. split_and!; [apply list_elem_of_here| |done].
    apply list_elem_of_further. by rewrite <- (sort_by_Normal _ _ _ Hxs).
  - intros [= ->]. destruct (IH eq_refl) as (a & b & Ha & Hb & Hc).
    exists a, b. split_and!; [by apply list_elem_of_further..|done].
Qed.

(** The insertion sort is an implementation of [sort]. *)
Lemma insertion_sort_conforms (ui : Ui) :
  sort ui = insertion_sort → sort_conforms ui.
Proof.
  intros Hsort cmp xs. rewrite Hsort. unfold insertion_sort.
  destruct (sort_by cmp xs) as [ys|e] eqn:Hxs; simpl.
  - split; [by eapply sort_by_Normal|done].
  - split; [done|]. intros e' [= <-]. by eapply sort_by_Throw.
Qed.

Lemma renderCardsList_Permutation (ui : Ui) (cs : list Card) :
  sort_conforms ui → (renderCardsList ui cs).2 ≡ₚ cs.
Proof.
  intros Hui. unfold renderCardsList.
  destruct (String.eqb (currentFilter ui) "all"); [|done]. apply Hui.
Qed.

Lemma render_Permutation (ui : Ui) (cs : list Card) :
  sort_conforms ui → (render ui cs).2 ≡ₚ cs.
Proof.
  intros Hui. unfold render.
  pose proof (renderCardsList_Permutation ui cs Hui) as H.
  by destruct (renderCardsList ui cs) as [[u|e] cs'].
Qed.

(** A failure of [renderCardsList] is a failure of the comparator on two
    cards of the store. *)
Lemma renderCardsList_Throw (ui : Ui) (cs : list Card) (e : exn) :
  sort_conforms ui → (renderCardsList ui cs).1 = Throw e →
  ∃ a b, a ∈ cs ∧ b ∈ cs ∧ compare_cards ui a b = Throw e.
Proof.
  intros Hui. unfold renderCardsList.
  destruct (String.eqb (currentFilter ui) "all"); simpl; intros H.
  - by apply Hui.
  - apply Hui in H as (a & b & Ha & Hb & Hc). exists a, b.
    rewrite !list_elem_of_In, !filter_In, <- !list_elem_of_In in Ha, Hb.
    destruct Ha as [Ha _], Hb as [Hb _]. done.
Qed.

(** *** Typed documents *)

(** The import of a document whose cards are typed: the mapping of the
    first pass, the cards that the second pass appends, and the store that
    the sorting of the list leaves. *)
Lemma importCards_typed (ui : Ui) (env : ImportEnv) (s : DataStore) (o : Card)
    (entries : list value) :
  sort_conforms ui →
  o !! "cards" = Some (VArr entries) →
  Forall (λ e, typed_entry e = true) entries →
  ∃ (m : gmap string string) (new : list Card),
    cards (importCards ui env (Normal (VObj o)) s).2 ≡ₚ cards s ++ new ∧
    navigationHistory (importCards ui env (Normal (VObj o)) s).2 = navigationHistory s ∧
    (importCards ui env (Normal (VObj o)) s).1 =
      match (render ui (cards s ++ new)).1 with
      | Normal _ => ToastSuccess (length entries)
      | Throw _ => ToastError
      end ∧
    length new = length entries ∧
    (∀ j c, entries !! j = Some (VObj c) →
       ∃ c', new !! j = Some c' ∧ ∀ f, c' !! f = imported_field env j m c f) ∧
    (∀ key newId, m !! key = Some newId →
       ∃ j e, entries !! j = Some e ∧ entry_id e = Some key ∧
              newId = fresh_id env j) ∧
    (∀ j e key, entries !! j = Some e → entry_id e = Some key →
       key ≠ "__proto__" → is_Some (m !! key)).
Proof.
  intros Hui Ho Hty.
  destruct (first_pass_typed env entries 0 ∅ Hty) as (m & Hfirst & Hprov & _ & Hdom).
  assert (Hcards : ∀ j e, entries !! j = Some e →
    ∃ c c', e = VObj c ∧ import_card env j m e = Normal c' ∧
            ∀ f, c' !! f = imported_field env j m c f).
  { intros j e Hj.
    assert (He : typed_entry e = true).
    { rewrite Forall_forall in Hty. apply Hty, list_elem_of_lookup. eauto. }
    destruct (typed_entry_inv e He) as (c & id & -> & Hc & Hid & Heid).
    destruct (import_card_typed env j m c Hc) as (c' & Hc' & Hfields).
    { intros id' Hid'. apply idMapping_get_is_Some. intros Hne.
      by apply (Hdom j (VObj c) id'). }
    by exists c, c'. }
  destruct (second_pass_Normal env m entries 0 (cards s) 0) as (new & Hsecond & Hlen & Hnew).
  { intros j e Hj. destruct (Hcards j e Hj) as (c & c' & _ & Hc' & _). by exists c'. }
  exists m, new.
  assert (Himp : importCards ui env (Normal (VObj o)) s =
    match render ui (cards s ++ new) with
    | (Normal _, cs') =>
        (ToastSuccess (length entries), mkDataStore cs' (navigationHistory s))
    | (Throw _, cs') => (ToastError, mkDataStore cs' (navigationHistory s))
    end).
  { unfold importCards, import_try. simpl. rewrite Ho, Hfirst, Hsecond. simpl.
    by destruct (render ui (cards s ++ new)) as [[u|e] cs']. }
  pose proof (render_Permutation ui (cards s ++ new) Hui) as Hperm.
  rewrite Himp.
  split_and!; [..|done| | |done].
  - by destruct (render ui (cards s ++ new)) as [[u|e] cs'].
  - by destruct (render ui (cards s ++ new)) as [[u|e] cs'].
  - by destruct (render ui (cards s ++ new)) as [[u|e] cs'].
  - intros j c Hj. destruct (Hnew j _ Hj) as (c' & Hc' & Himp').
    destruct (Hcards j _ Hj) as (c0 & c'' & [= <-] & Himp'' & Hfields).
    simpl in Himp'. rewrite Himp' in Himp''. simplify_eq. by exists c''.
  - intros key newId Hkey. by destruct (Hprov key newId Hkey) as [H|H].
Qed.

Lemma imported_id (env : ImportEnv) (m : gmap string string) (entries : list value)
    (j : nat) (c : Card) :
  (∀ key newId, m !! key = Some newId →
     ∃ j e, entries !! j = Some e ∧ entry_id e = Some key ∧ newId = fresh_id env j) →
  (∀ j e key, entries !! j = Some e → entry_id e = Some key →
     key ≠ "__proto__" → is_Some (m !! key)) →
  entries !! j = Some (VObj c) →
  typed_card c = true →
  card_id c ≠ Some "__proto__" →
  ∃ id j', card_id c = Some id ∧
    (∃ c', entries !! j' = Some (VObj c') ∧ card_id c' = Some id) ∧
    m !! id = Some (fresh_id env j') ∧
    imported_field env j m c "id" = Some (VStr (fresh_id env j')).
Proof.
  intros Hprov Hdom Hj Hc Hproto.
  destruct (typed_card_id c Hc) as (id & Hid & Hcid).
  assert (Hne : id ≠ "__proto__") by congruence.
  destruct (Hdom j (VObj c) id Hj Hcid Hne) as [newId HnewId].
  destruct (Hprov id newId HnewId) as (j' & e & Hj' & He & ->).
  exists id, j'. split_and!; [done| |done|].
  - destruct e as [| | | | |c'|]; try done. by exists c'.
  - unfold imported_field. simpl. rewrite Hcid. simpl.
    unfold idMapping_get. by rewrite HnewId.
Qed.

(** C3 (amended). The import of a document of M typed cards into a store
    of N cards leaves N+M cards in the store: the N cards it held and M
    new ones, in the order in which the sorting of the list leaves them;
    a success toast counts M.  The new cards carry the generated ids, and
    the ids of the store are pairwise distinct, when: the ids of the store
    were; the ids of the document are pairwise distinct and none is
    [__proto__]; the M generated ids are pairwise distinct and none is
    the id of a card of the store. *)
Theorem importCards_distinct_ids (ui : Ui) (env : ImportEnv) (s : DataStore)
    (o : Card) (entries : list value) :
  sort_conforms ui →
  o !! "cards" = Some (VArr entries) →
  Forall (λ e, typed_entry e = true) entries →
  let M := length entries in
  let r := importCards ui env (Normal (VObj o)) s in
  ∃ new : list Card,
    cards r.2 ≡ₚ cards s ++ new ∧
    length new = M ∧
    length (cards r.2) = (length (cards s) + M)%nat ∧
    (∀ n, r.1 = ToastSuccess n → n = M) ∧
    (NoDup (card_ids (cards s)) →
     NoDup (entry_id <$> entries) →
     Some "__proto__" ∉ entry_id <$> entries →
     NoDup (fresh_id env <$> seq 0 M) →
     (∀ k, (k < M)%nat → Some (VStr (fresh_id env k)) ∉ card_ids (cards s)) →
     card_ids new = (λ k, Some (VStr (fresh_id env k))) <$> seq 0 M ∧
     NoDup (card_ids (cards r.2))).
Proof.
  intros Hui Ho Hty M r.
  destruct (importCards_typed ui env s o entries Hui Ho Hty)
    as (m & new & Hperm & _ & Htoast & Hlen & Hnew & Hprov & Hdom).
  subst r. exists new.
  split_and!; [done|done|by rewrite Hperm, length_app, Hlen| |].
  { intros n. rewrite Htoast.
    destruct ((render ui (cards s ++ new)).1); [by intros [= <-]|done]. }
  intros Hold Hdoc Hproto Hfresh Hdisj.
  assert (Hids : card_ids new = (λ k, Some (VStr (fresh_id env k))) <$> seq 0 M).
  { apply list_eq. intros j. unfold card_ids. rewrite !list_lookup_fmap.
    destruct (entries !! j) as [e|] eqn:Hj.
    - assert (He : typed_entry e = true).
      { rewrite Forall_forall in Hty. apply Hty, list_elem_of_lookup. eauto. }
      destruct (typed_entry_inv e He) as (c & id & -> & Hc & Hid & Heid).
      destruct (Hnew j c Hj) as (c' & -> & Hfields). simpl.
      rewrite lookup_seq_lt by (by eapply lookup_lt_Some). simpl.
      rewrite Hfields.
      destruct (imported_id env m entries j c Hprov Hdom Hj Hc)
        as (id' & j' & Hid' & (c'' & Hj' & Hid'') & _ & ->).
      { intros Hp. apply Hproto. apply list_elem_of_lookup. exists j.
        rewrite list_lookup_fmap, Hj. simpl. by rewrite Hp. }
      do 4 f_equal.
      apply (NoDup_lookup _ _ _ (Some id') Hdoc).
      + rewrite list_lookup_fmap, Hj'. simpl. by rewrite Hid''.
      + rewrite list_lookup_fmap, Hj. simpl. by rewrite Hid'.
    - apply lookup_ge_None in Hj.
      rewrite (proj2 (lookup_ge_None new j)) by lia.
      rewrite (proj2 (lookup_ge_None (seq 0 M) j)); [done|].
      rewrite length_seq. done. }
  split; [done|].
  unfold card_ids at 1. rewrite Hperm, fmap_app.
  fold (card_ids (cards s)). fold (card_ids new).
  apply NoDup_app. split_and!; [done| |].
  - intros x Hx Hx'. rewrite Hids in Hx'.
    apply list_elem_of_fmap in Hx' as (k & -> & Hk).
    apply elem_of_seq in Hk. apply (Hdisj k); [lia|done].
  - rewrite Hids.
    replace ((λ k, Some (VStr (fresh_id env k))) <$> seq 0 M)
      with ((λ id, Some (VStr id)) <$> (fresh_id env <$> seq 0 M))
      by (by rewrite <- list_fmap_compose).
    apply NoDup_fmap_2; [|done]. intros x y H. by simplify_eq.
Qed.

(** The tavern and the market are imported into a store of three cards;
    the list shows the two locations first. *)
Lemma importCards_distinct_ids_witness :
  let r := importCards page_all env_distinct
             (Normal (VObj (document [VObj tavern; VObj market]))) three_cards in
  length (cards r.2) = 5%nat ∧ NoDup (card_ids (cards r.2)).
Proof.
  cbv zeta.
  destruct (importCards_distinct_ids page_all env_distinct three_cards
              (document [VObj tavern; VObj market]) [VObj tavern; VObj market])
    as (new & _ & _ & Hlen & _ & Hids).
  - by apply insertion_sort_conforms.
  - vm_compute. reflexivity.
  - repeat constructor.
  - split; [exact Hlen|].
    apply Hids.
    + apply (NoDup_card_ids _ ["card_1_aaa"; "card_2_bbb"; "card_3_ccc"]).
      * vm_compute. reflexivity.
      * apply (bool_decide_unpack _). vm_compute. exact I.
    + apply (bool_decide_unpack _). vm_compute. exact I.
    + apply (bool_decide_unpack _). vm_compute. exact I.
    + apply (bool_decide_unpack _). vm_compute. exact I.
    + intros k Hk.
      apply (not_elem_of_card_ids _ ["card_1_aaa"; "card_2_bbb"; "card_3_ccc"]).
      * vm_compute. reflexivity.
      * apply (bool_decide_unpack _).
        destruct k as [|[|k]]; [vm_compute; exact I..|simpl in Hk; lia].
Defined.

(** C3 fails as stated: two cards of a document under one id are imported
    under one new id; and so are two cards whose ids are generated in the
    same millisecond from random texts that agree on their first nine
    digits. *)
Lemma import_collision :
  (let r := importCards page_all env_distinct
              (Normal (VObj (document [VObj twin_a; VObj twin_b]))) empty_store in
   r.1 = ToastSuccess 2 ∧ length (cards r.2) = 2%nat ∧
   card_field 0 "id" r.2 = Some (VStr (fresh_id env_distinct 1)) ∧
   card_field 1 "id" r.2 = Some (VStr (fresh_id env_distinct 1))) ∧
  (let r := importCards page_all env_truncated
              (Normal (VObj (document [VObj tavern; VObj market]))) empty_store in
   id_random36 env_truncated 0 ≠ id_random36 env_truncated 1 ∧
   r.1 = ToastSuccess 2 ∧ length (cards r.2) = 2%nat ∧
   card_field 0 "id" r.2 = Some (VStr (fresh_id env_truncated 0)) ∧
   card_field 1 "id" r.2 = Some (VStr (fresh_id env_truncated 0))).
Proof.
  split; cbv zeta; split_and!;
    try (vm_compute; reflexivity); vm_compute; discriminate.
Qed.

(** ** [exportCards], then [importCards] *)

Lemma exportCards_Some (now : Z) (s : DataStore) (data : value) :
  exportCards now s = Some data →
  Forall (λ c, JSON_copy (VObj c) = Some (VObj c)) (cards s) →
  cards s ≠ [] ∧
  ∃ o : Card, data = VObj o ∧ o !! "cards" = Some (VArr (VObj <$> cards s)).
Proof.
  unfold exportCards, getAllCards. intros H Hjson.
  destruct (cards s) as [|c cs] eqn:Hcs; [done|]. split; [done|].
  rewrite <- Hcs in *. clear Hcs c cs.
  simpl in H. simplify_eq. eexists. split; [done|].
  rewrite lookup_omap, lookup_insert_eq. simpl. do 2 f_equal.
  induction Hjson as [|c cs Hc Hcs IH]; [done|].
  rewrite !fmap_cons. f_equal; [|done].
  change (default VNull (JSON_copy (VObj c)) = VObj c). by rewrite Hc.
Qed.

Lemma find_is_Some {A} (p : A → bool) (xs : list A) (x : A) :
  x ∈ xs → p x = true → ∃ y, List.find p xs = Some y ∧ y ∈ xs ∧ p y = true.
Proof.
  intros Hin Hp. destruct (List.find p xs) as [y|] eqn:Hfind.
  - apply find_some in Hfind as [Hy Hpy]. exists y.
    by rewrite list_elem_of_In.
  - apply list_elem_of_In in Hin.
    rewrite (find_none _ _ Hfind x Hin) in Hp. done.
Qed.

(** C2 (amended). Round trip: take a store that is not empty, whose cards
    are typed, have an id other than [__proto__] and hold JSON values only,
    and an import whose generated ids are pairwise distinct.  Importing
    the exported document into a new store leaves as many cards in it:
    one copy of each card, in the order in which the sorting of the list
    leaves them; a success toast counts them.  Each copy has a new id and
    the time stamps of the import, agrees with its original on every
    other field that is no reference field, and has in a reference field
    the list of the original with every entry renamed by one function
    [ρ] and the empty strings dropped.  [ρ] sends the id of a card of the
    store to a string that is not empty, under which [getCard] finds in
    the new store the copy of a card with that id: the copy of the card
    that [getCard] finds in the old store when no other card has its id.
    [ρ] leaves alone every other id that is no property name of
    [Object.prototype]. *)
Theorem export_import_round_trip (ui : Ui) (now : Z) (env : ImportEnv)
    (s : DataStore) (data : value) :
  sort_conforms ui →
  exportCards now s = Some data →
  Forall (λ c, typed_card c = true ∧ card_id c ≠ Some "__proto__" ∧
               JSON_copy (VObj c) = Some (VObj c)) (cards s) →
  NoDup (fresh_id env <$> seq 0 (length (cards s))) →
  let N := length (cards s) in
  let r := importCards ui env (Normal data) empty_store in
  ∃ (ρ : value → value) (copies : list Card),
    cards r.2 ≡ₚ copies ∧
    length copies = N ∧
    length (cards r.2) = N ∧
    (∀ n, r.1 = ToastSuccess n → n = N) ∧
    (∀ k c, cards s !! k = Some c →
       ∃ c', copies !! k = Some c' ∧
         (∃ newId, c' !! "id" = Some (VStr newId)) ∧
         c' !! "createdAt" = Some (VStr (toISOString (created_now env k))) ∧
         c' !! "updatedAt" = Some (VStr (toISOString (updated_now env k))) ∧
         (∀ f, f ∉ ["id"; "createdAt"; "updatedAt"] → f ∉ ref_fields →
            c' !! f = c !! f) ∧
         (∀ f, f ∈ ref_fields → c !! f = None → c' !! f = None) ∧
         (∀ f xs, f ∈ ref_fields → c !! f = Some (VArr xs) →
            c' !! f = Some (VArr (List.filter truthy (ρ <$> xs))))) ∧
    (∀ id target, getCard id s = Some target →
       ∃ newId j c0 c',
         ρ (VStr id) = VStr newId ∧ truthy (VStr newId) = true ∧
         cards s !! j = Some c0 ∧ c0 !! "id" = Some (VStr id) ∧
         copies !! j = Some c' ∧
         getCard newId r.2 = Some c' ∧
         (only_card_with_id id s → c0 = target)) ∧
    (∀ id, getCard id s = None → id ∉ Object_prototype_names →
       ρ (VStr id) = VStr id).
Proof.
  intros Hui Hexp Hcards Hfresh N r.
  destruct (exportCards_Some now s data Hexp) as (Hne & o & -> & Ho).
  { eapply Forall_impl; [exact Hcards|]. by intros c (_ & _ & ?). }
  assert (Hty : Forall (λ e, typed_entry e = true) (VObj <$> cards s)).
  { apply Forall_fmap. eapply Forall_impl; [exact Hcards|]. by intros c (? & _ & _). }
  destruct (importCards_typed ui env empty_store o _ Hui Ho Hty)
    as (m & new & Hperm & _ & Htoast & Hlen & Hnew & Hprov & Hdom).
  rewrite length_fmap in Hlen, Htoast. simpl in Hperm, Htoast.
  subst r.
  assert (Hentry : ∀ j c, cards s !! j = Some c → (VObj <$> cards s) !! j = Some (VObj c)).
  { intros j c Hj. by rewrite list_lookup_fmap, Hj. }
  assert (Hcard : ∀ j c, cards s !! j = Some c →
            typed_card c = true ∧ card_id c ≠ Some "__proto__").
  { intros j c Hj. rewrite Forall_forall in Hcards.
    destruct (Hcards c) as (? & ? & _); [|done]. apply list_elem_of_lookup. eauto. }
  assert (Hnew_id : ∀ j c c', cards s !! j = Some c → new !! j = Some c' →
            ∃ id j', card_id c = Some id ∧ m !! id = Some (fresh_id env j') ∧
                     (j' < N)%nat ∧
                     (∃ c0, cards s !! j' = Some c0 ∧ card_id c0 = Some id) ∧
                     c' !! "id" = Some (VStr (fresh_id env j'))).
  { intros j c c' Hj Hj'. destruct (Hcard j c Hj) as [Hc Hproto].
    destruct (imported_id env m _ j c Hprov Hdom (Hentry j c Hj) Hc Hproto)
      as (id & j' & Hid & (c0 & Hc0 & Hid0) & Hm & Hfield).
    rewrite list_lookup_fmap in Hc0.
    destruct (cards s !! j') as [c1|] eqn:Hc1; simplify_eq/=.
    exists id, j'. split_and!; [done|done|by eapply lookup_lt_Some|by exists c0|].
    destruct (Hnew j c (Hentry j c Hj)) as (c'' & Hc'' & Hfields).
    rewrite Hj' in Hc''. simplify_eq. by rewrite Hfields. }
  assert (Hagree : ∀ id' j', m !! id' = Some (fresh_id env j') → (j' < N)%nat →
            ∀ i x y, cards s !! i = Some x → new !! i = Some y →
              has_id id' x = has_id (fresh_id env j') y).
  { intros id' j' Hm Hj'N i x y Hx Hy.
    destruct (Hnew_id i x y Hx Hy)
      as (idx & jx & Hidx & Hmx & HjxN & (cx & Hcx & Hcxid) & Hy_id).
    rewrite (has_id_str _ _ _ Hy_id).
    destruct (typed_card_id x (proj1 (Hcard i x Hx))) as (ix & Hix & Hix').
    rewrite (has_id_str _ _ _ Hix).
    assert (idx = ix) as -> by congruence.
    destruct (decide (ix = id')) as [->|Hne'].
    - assert (Hff : fresh_id env j' = fresh_id env jx) by congruence.
      by rewrite Hff, !String.eqb_refl.
    - rewrite (proj2 (String.eqb_neq _ _)) by done.
      symmetry. apply String.eqb_neq. intros Heq.
      assert (jx = j'); [|subst jx].
      { apply (NoDup_lookup _ _ _ (fresh_id env j') Hfresh).
        - rewrite list_lookup_fmap, lookup_seq_lt by done. simpl. by rewrite Heq.
        - by rewrite list_lookup_fmap, lookup_seq_lt by done. }
      destruct (Hprov id' _ Hm) as (j2 & e2 & Hj2 & He2 & Hf2).
      destruct (Hprov ix _ Hmx) as (j3 & e3 & Hj3 & He3 & Hf3).
      assert (j2 = j3); [|subst j3].
      { apply (NoDup_lookup _ _ _ (fresh_id env j') Hfresh).
        - rewrite list_lookup_fmap, lookup_seq_lt. { simpl. by rewrite Hf2. }
          apply lookup_lt_Some in Hj2. by rewrite length_fmap in Hj2.
        - rewrite list_lookup_fmap, lookup_seq_lt. { simpl. by rewrite Hf3. }
          apply lookup_lt_Some in Hj3. by rewrite length_fmap in Hj3. }
      congruence. }
  exists (remap_value m), new.
  split_and!; [done|done|by rewrite Hperm| |..].
  - intros n. rewrite Htoast. destruct ((render ui new).1); [by intros [= <-]|done].
  - intros k c Hk. destruct (Hnew k c (Hentry k c Hk)) as (c' & Hc' & Hfields).
    exists c'. split_and!; [done|..].
    + destruct (Hnew_id k c c' Hk Hc') as (id & j' & _ & _ & _ & _ & Hid). eauto.
    + by rewrite Hfields.
    + by rewrite Hfields.
    + intros f Hf Hrf. rewrite Hfields. unfold imported_field.
      rewrite !elem_of_cons, elem_of_nil in Hf.
      repeat (rewrite decide_False by tauto). done.
    + intros f Hf Hcf. rewrite Hfields. unfold imported_field.
      destruct (ref_fields_other f Hf) as (? & ? & _).
      rewrite decide_False, decide_False, decide_True by done.
      by rewrite Hcf.
    + intros f xs Hf Hcf. rewrite Hfields. unfold imported_field.
      destruct (ref_fields_other f Hf) as (? & ? & _).
      rewrite decide_False, decide_False, decide_True by done.
      by rewrite Hcf.
  - intros id target Hget.
    apply getCard_Some in Hget as (j0 & Hfind & Hj0).
    pose proof Hfind as Hfind'.
    apply findIndex_Some in Hfind' as [(t0 & Ht0 & Hp0) _].
    rewrite Hj0 in Ht0. simplify_eq.
    apply has_id_card_id in Hp0 as Hid.
    assert (Hcid : card_id t0 = Some id) by (unfold card_id; by rewrite Hid).
    destruct (Hnew j0 t0 (Hentry j0 t0 Hj0)) as (t' & Ht' & _).
    destruct (Hnew_id j0 t0 t' Hj0 Ht') as (id' & j' & Hid' & Hm & Hj'N & _ & Ht'id).
    rewrite Hcid in Hid'. simplify_eq.
    assert (Hρ : remap_value m (VStr id') = VStr (fresh_id env j')).
    { simpl. unfold remap_id, idMapping_get. rewrite Hm. simpl. done. }
    destruct (find_is_Some (has_id (fresh_id env j'))
                (cards (importCards ui env (Normal (VObj o)) empty_store).2) t')
      as (c' & Hfound & Hin & Hpc').
    { rewrite Hperm. apply list_elem_of_lookup. eauto. }
    { by apply has_id_card_id. }
    rewrite Hperm in Hin. apply list_elem_of_lookup in Hin as [j Hj].
    assert (Hjs : is_Some (cards s !! j)).
    { apply lookup_lt_is_Some. rewrite <- Hlen. by eapply lookup_lt_Some. }
    destruct Hjs as [c0 Hc0].
    pose proof (Hagree id' j' Hm Hj'N j c0 c' Hc0 Hj) as Hsame.
    rewrite Hpc' in Hsame.
    exists (fresh_id env j'), j, c0, c'.
    split_and!; [done|done|done|by apply has_id_card_id|done|done|].
    intros Honly. assert (j = j0) as ->; [|congruence].
    by apply (Honly j j0 c0 t0).
  - intros id Hget Hproto. simpl. unfold remap_id, idMapping_get.
    destruct (m !! id) as [newId|] eqn:Hm.
    + exfalso. destruct (Hprov id newId Hm) as (j & e & Hj & He & _).
      rewrite list_lookup_fmap in Hj.
      destruct (cards s !! j) as [c|] eqn:Hc; simplify_eq/=.
      unfold getCard in Hget. pose proof (find_none _ _ Hget c) as Hn.
      rewrite <- list_elem_of_In in Hn.
      assert (Hhas : has_id id c = true).
      { apply has_id_card_id. unfold card_id in He.
        by destruct (c !! "id") as [[]|]; simplify_eq. }
      rewrite Hn in Hhas; [done|]. apply list_elem_of_lookup. eauto.
    + by rewrite bool_decide_eq_false_2.
Qed.

(** The sample world is exported and imported: the tavern, which came
    first, comes back after the market. *)
Lemma export_import_round_trip_witness :
  ∃ data, exportCards 0 world = Some data ∧
    length (cards (importCards page_all env_distinct (Normal data) empty_store).2)
      = 3%nat.
Proof.
  destruct (exportCards 0 world) as [data|] eqn:Hexp;
    [|vm_compute in Hexp; discriminate].
  exists data. split; [reflexivity|].
  destruct (export_import_round_trip page_all 0 env_distinct world data)
    as (ρ & copies & _ & _ & Hlen & _).
  - by apply insertion_sort_conforms.
  - exact Hexp.
  - repeat constructor; try (vm_compute; discriminate).
  - apply (bool_decide_unpack _). vm_compute. exact I.
  - exact Hlen.
Defined.

(** C2 fails as stated: nothing is exported from an empty store; when two
    generated ids coincide, a bond to the second card resolves to the copy
    of the first; a card whose [bonds] is a string makes the import fail
    with no card imported; and a card under the id [__proto__] comes back
    with [Object.prototype] for an id. *)
Lemma round_trip_fails :
  exportCards 0 empty_store = None ∧
  (let r := reimport page_all env_truncated three_cards in
   ∃ id, card_field 2 "bonds" three_cards = Some (VArr [VStr id]) ∧
         getCard id three_cards = cards three_cards !! 1%nat ∧
   ∃ newId, card_field 2 "bonds" r.2 = Some (VArr [VStr newId]) ∧
            getCard newId r.2 = cards r.2 !! 0%nat ∧
            cards r.2 !! 0%nat ≠ cards r.2 !! 1%nat) ∧
  (let r := reimport page_all env_distinct odd_bonds in
   length (cards odd_bonds) = 1%nat ∧ r.1 = ToastError ∧ cards r.2 = []) ∧
  (let r := reimport page_all env_distinct proto_card in
   length (cards r.2) = 1%nat ∧
   card_field 0 "id" r.2 = Some (VBuiltin "__proto__")).
Proof.
  split_and!.
  - reflexivity.
  - cbv zeta. exists "card_2_bbb". split_and!.
    + vm_compute. reflexivity.
    + vm_compute. reflexivity.
    + exists (fresh_id env_truncated 0). split_and!.
      * vm_compute. reflexivity.
      * vm_compute. reflexivity.
      * intros H.
        assert (H0 : card_field 0 "name" (reimport page_all env_truncated three_cards).2
                       = Some (VStr "A")) by (vm_compute; reflexivity).
        assert (H1 : card_field 1 "name" (reimport page_all env_truncated three_cards).2
                       = Some (VStr "B")) by (vm_compute; reflexivity).
        unfold card_field in H0, H1. rewrite H, H1 in H0. discriminate H0.
  - cbv zeta. split_and!; vm_compute; reflexivity.
  - cbv zeta. split; vm_compute; reflexivity.
Qed.
(** * Further properties *)

(** ** The repository *)

Lemma getCard_None (id : string) (s : DataStore) :
  getCard id s = None ↔ findIndex (has_id id) (cards s) = None.
Proof.
  unfold getCard. rewrite find_findIndex.
  destruct (findIndex (has_id id) (cards s)) as [i|] eqn:Hfind; simpl; [|done].
  apply findIndex_Some in Hfind as [(x & Hx & _) _]. rewrite Hx. done.
Qed.

Lemma find_app {A} (p : A → bool) (xs ys : list A) :
  List.find p (xs ++ ys) =
    match List.find p xs with Some x => Some x | None => List.find p ys end.
Proof. induction xs as [|x xs IH]; simpl; [done|]. by destruct (p x). Qed.

(** [updateCard] answers [null] and leaves the store as it was exactly
    when no card of the store has the id. *)
Theorem updateCard_not_found (now : Z) (id : string) (cardData : Card)
    (s : DataStore) :
  getCard id s = None ↔ updateCard now id cardData s = (None, s).
Proof.
  rewrite getCard_None. unfold updateCard.
  destruct (findIndex (has_id id) (cards s)) as [index|] eqn:Hfind; [|done].
  apply findIndex_Some in Hfind as [(old & Hold & _) _]. rewrite Hold.
  split; intros H; discriminate H.
Qed.

Lemma strip_all_length (id : string) (cs : list Card) :
  length (strip_all id cs).2 = length cs.
Proof.
  induction cs as [|c cs IH]; simpl; [done|].
  destruct (strip_card id c) as [[u|e] c']; simpl.
  - destruct (strip_all id cs) as [r rest']. simpl in *. by rewrite IH.
  - done.
Qed.

(** [deleteCard] answers [false] and leaves the store as it was exactly
    when no card of the store has the id. *)
Theorem deleteCard_not_found (id : string) (s : DataStore) :
  getCard id s = None ↔ deleteCard id s = (Normal false, s).
Proof.
  rewrite getCard_None. unfold deleteCard.
  destruct (findIndex (has_id id) (cards s)) as [index|] eqn:Hfind; [|done].
  destruct (strip_all id (cards s)) as [[u|e] cs]; split; intros H; discriminate H.
Qed.

(** [getCard] after [createCard], on the id of the new card: it answers
    the new card, unless a card of the store had the id before; then it
    answers that older card. *)
Theorem create_get_round_trip (now : Z) (random36 : string) (t_created t_updated : Z)
    (cardData : Card) (s : DataStore) (id : string) :
  let card := (createCard now random36 t_created t_updated cardData s).1 in
  let s' := (createCard now random36 t_created t_updated cardData s).2 in
  card !! "id" = Some (VStr id) →
  getCard id s' = match getCard id s with Some old => Some old | None => Some card end.
Proof.
  cbv zeta. unfold createCard, getCard. simpl. intros Hid. rewrite find_app.
  destruct (List.find (has_id id) (cards s)); [done|]. simpl.
  by rewrite (proj2 (has_id_card_id id _) Hid).
Qed.

Lemma create_get_round_trip_witness :
  let r := createCard 7 "0.k3j9x2m1qq" 7 7 {["name" := VStr "Inn"]} world in
  getCard "card_7_k3j9x2m1q" r.2 = Some r.1.
Proof.
  cbv zeta.
  rewrite (create_get_round_trip 7 "0.k3j9x2m1qq" 7 7 {["name" := VStr "Inn"]} world
             "card_7_k3j9x2m1q") by (vm_compute; reflexivity).
  reflexivity.
Defined.

Lemma strict_eq_str_spec (id : string) (v : value) :
  strict_eq_str id v = true ↔ v = VStr id.
Proof.
  unfold strict_eq_str. destruct v; try done.
  rewrite String.eqb_eq. split; congruence.
Qed.

(** [getCardsByType] answers the cards whose [type] is the string asked
    for, and no others, in the order of the store; no card is answered
    for two types. *)
Theorem getCardsByType_spec (type : string) (s : DataStore) :
  sublist (getCardsByType type s) (cards s) ∧
  (∀ c, c ∈ getCardsByType type s ↔ c ∈ cards s ∧ c !! "type" = Some (VStr type)) ∧
  (∀ type', type' ≠ type →
     ∀ c, c ∈ getCardsByType type s → c ∉ getCardsByType type' s).
Proof.
  assert (Hin : ∀ t c, c ∈ getCardsByType t s ↔
                       c ∈ cards s ∧ c !! "type" = Some (VStr t)).
  { intros t c. unfold getCardsByType.
    rewrite list_elem_of_In, filter_In, <- list_elem_of_In.
    destruct (c !! "type") as [v|].
    - rewrite strict_eq_str_spec. split; intros [? ?]; split; congruence.
    - split; intros [? ?]; congruence. }
  split_and!; [apply sublist_List_filter|apply Hin|].
  intros type' Hne c Hc Hc'. apply Hin in Hc as [_ Hc]. apply Hin in Hc' as [_ Hc'].
  congruence.
Qed.

(** [updateCard] on an id that some card has: the first card with the id
    is replaced, at its position, by the card that has [updatedAt] of the
    clock, every other field from [cardData] where [cardData] has it and
    from the old card where not; all other positions and the length of
    the collection are as they were. *)
Theorem updateCard_merge (now : Z) (id : string) (cardData : Card)
    (s : DataStore) (old : Card) :
  getCard id s = Some old →
  ∃ index card,
    updateCard now id cardData s =
      (Some card, mkDataStore (<[index := card]> (cards s)) (navigationHistory s)) ∧
    findIndex (has_id id) (cards s) = Some index ∧
    cards s !! index = Some old ∧
    card !! "updatedAt" = Some (VStr (toISOString now)) ∧
    (∀ f, f ≠ "updatedAt" →
       card !! f = match cardData !! f with Some v => Some v | None => old !! f end) ∧
    length (cards (updateCard now id cardData s).2) = length (cards s) ∧
    cards (updateCard now id cardData s).2 !! index = Some card ∧
    (∀ k, k ≠ index → cards (updateCard now id cardData s).2 !! k = cards s !! k).
Proof.
  intros Hget. apply getCard_Some in Hget as (index & Hfind & Hold).
  exists index, (<["updatedAt" := VStr (toISOString now)]> (cardData ∪ old)).
  assert (Hupd : updateCard now id cardData s =
    (Some (<["updatedAt" := VStr (toISOString now)]> (cardData ∪ old)),
     mkDataStore (<[index := <["updatedAt" := VStr (toISOString now)]> (cardData ∪ old)]>
                    (cards s)) (navigationHistory s))).
  { unfold updateCard. by rewrite Hfind, Hold. }
  rewrite Hupd. simpl. split_and!; [done|done|done|..].
  - by rewrite lookup_insert_eq.
  - intros f Hf. rewrite lookup_insert_ne by done.
    destruct (cardData !! f) as [v|] eqn:Hv.
    + by apply lookup_union_Some_l.
    + by rewrite lookup_union_r.
  - by rewrite length_insert.
  - apply list_lookup_insert_eq. by eapply lookup_lt_Some.
  - intros k Hk. by rewrite list_lookup_insert_ne.
Qed.

Lemma updateCard_merge_witness :
  ∃ card, (updateCard 5 "m" {["name" := VStr "Bazaar"; "hooks" := VStr "fire"]} world).1
            = Some card ∧
          card !! "name" = Some (VStr "Bazaar") ∧
          card !! "description" = Some (VStr "Stalls and Rumours").
Proof.
  destruct (updateCard_merge 5 "m" {["name" := VStr "Bazaar"; "hooks" := VStr "fire"]}
              world market)
    as (index & card & Hupd & _ & _ & _ & Hf & _).
  - reflexivity.
  - exists card. rewrite Hupd. split_and!; [done|by rewrite Hf|by rewrite Hf].
Defined.

(** After any number of [pushToHistory], on a history of at most 20
    entries, the history is the last 20 of the old entries followed by
    the ids pushed; the cards are as they were. *)
Theorem history_capacity (ids : list string) (s : DataStore) :
  (length (navigationHistory s) ≤ 20)%nat →
  navigationHistory (pushAll ids s) = last_n 20 (navigationHistory s ++ ids) ∧
  (length (navigationHistory (pushAll ids s)) ≤ 20)%nat ∧
  cards (pushAll ids s) = cards s.
Proof.
  intros Hlen. rewrite pushAll_history by done. split_and!; [done| |].
  - rewrite last_n_length. lia.
  - apply pushAll_cards.
Qed.

Lemma history_capacity_witness :
  navigationHistory (pushAll (ids25 ++ ["c03"; "c04"]) (pushAll ["a"; "b"] empty_store))
    = drop 9 (["a"; "b"] ++ ids25 ++ ["c03"; "c04"]).
Proof.
  destruct (history_capacity (ids25 ++ ["c03"; "c04"]) (pushAll ["a"; "b"] empty_store))
    as (H & _ & _).
  - simpl. lia.
  - rewrite H. reflexivity.
Defined.

(** [getLastFromHistory] after [pushToHistory] answers the id that was
    pushed and leaves the history as it was before the push, less its
    oldest entry when it held 20 or more. *)
Theorem push_pop (id : string) (s : DataStore) :
  let r := getLastFromHistory (pushToHistory id s) in
  r.1 = Some id ∧
  cards r.2 = cards s ∧
  navigationHistory r.2 =
    (if (20 <=? length (navigationHistory s))%nat
     then drop 1 (navigationHistory s) else navigationHistory s).
Proof.
  cbv zeta. unfold getLastFromHistory, pushToHistory.
  cbn [navigationHistory cards fst snd]. rewrite length_app. cbn [length].
  destruct (Nat.ltb_spec 20 (length (navigationHistory s) + 1)) as [H|H].
  - rewrite drop_app_le by lia. rewrite last_snoc, removelast_last.
    by rewrite (proj2 (Nat.leb_le 20 _)) by lia.
  - rewrite last_snoc, removelast_last.
    by rewrite (proj2 (Nat.leb_gt 20 _)) by lia.
Qed.

Lemma strip_field_cases (id f : string) (c : Card) :
  (strippable_field (c !! f) = true ∧
   ∃ c', strip_field id f c = Normal c' ∧ ∀ g, g ≠ f → c' !! g = c !! g) ∨
  (strippable_field (c !! f) = false ∧ strip_field id f c = Throw TypeError).
Proof.
  unfold strip_field, strippable_field.
  destruct (c !! f) as [v|] eqn:Hf; [|left; eauto].
  destruct (truthy v) eqn:Hv.
  - destruct v; simpl in *; try (right; done).
    left. split; [done|]. eexists. split; [done|].
    intros g Hg. by rewrite lookup_insert_ne.
  - left. split; [by destruct v|]. eauto.
Qed.

Lemma strip_card_cases (id : string) (c : Card) :
  ∃ c', (∀ g, g ∉ ref_fields → c' !! g = c !! g) ∧
    ((strippable c = true ∧ strip_card id c = (Normal (), c')) ∨
     (strippable c = false ∧ strip_card id c = (Throw TypeError, c'))).
Proof.
  unfold strippable, strip_card. simpl.
  destruct (strip_field_cases id "adjacentLocations" c)
    as [(-> & c1 & -> & E1)|(-> & ->)]; [|exists c; auto].
  destruct (strip_field_cases id "presentCharacters" c1) as [(H2 & c2 & -> & E2)|(H2 & ->)];
    rewrite E1 in H2 by done; rewrite H2; simpl.
  2:{ exists c1. split; [|auto]. intros g Hg. apply E1. intros ->. apply Hg.
      apply ref_fields_spec. auto. }
  destruct (strip_field_cases id "bonds" c2) as [(H3 & c3 & -> & E3)|(H3 & ->)];
    rewrite E2, E1 in H3 by done; rewrite H3; simpl.
  - exists c3. split; [|auto]. intros g Hg. rewrite ref_fields_spec in Hg.
    rewrite E3, E2, E1; [done|..]; intros ->; tauto.
  - exists c2. split; [|auto]. intros g Hg. rewrite ref_fields_spec in Hg.
    rewrite E2, E1; [done|..]; intros ->; tauto.
Qed.

Lemma strip_all_cases (id : string) (cs : list Card) :
  ∃ cs', Forall2 (λ c c' : Card, ∀ g, g ∉ ref_fields → c' !! g = c !! g) cs cs' ∧
    ((Forall (λ c, strippable c = true) cs ∧ strip_all id cs = (Normal (), cs')) ∨
     (¬ Forall (λ c, strippable c = true) cs ∧ strip_all id cs = (Throw TypeError, cs'))).
Proof.
  induction cs as [|c cs (cs' & Hframe & IH)]; simpl.
  { exists []. split; [constructor|]. left. split; [constructor|done]. }
  destruct (strip_card_cases id c) as (c' & Hc' & [[Hc ->]|[Hc ->]]).
  - exists (c' :: cs'). split; [by constructor|].
    destruct IH as [[Hcs ->]|[Hcs ->]]; [left|right]; (split; [|done]).
    + by constructor.
    + intros H. apply Forall_cons in H as [_ H]. done.
  - exists (c' :: cs). split.
    + constructor; [done|]. apply Forall_Forall2_diag, Forall_true. done.
    + right. split; [|done]. intros H. apply Forall_cons in H as [H _]. congruence.
Qed.

Lemma frame_has_id (id : string) (c c' : Card) :
  (∀ g, g ∉ ref_fields → c' !! g = c !! g) → has_id id c' = has_id id c.
Proof.
  intros H. unfold has_id. rewrite H; [done|].
  rewrite ref_fields_spec. intros [?|[?|?]]; done.
Qed.

Lemma deleteCard_cases (id : string) (s : DataStore) (index : nat) :
  findIndex (has_id id) (cards s) = Some index →
  ∃ cs', Forall2 (λ c c' : Card, ∀ g, g ∉ ref_fields → c' !! g = c !! g) (cards s) cs' ∧
    ((Forall (λ c, strippable c = true) (cards s) ∧
      deleteCard id s = (Normal true, mkDataStore (delete index cs') (navigationHistory s))) ∨
     (¬ Forall (λ c, strippable c = true) (cards s) ∧
      deleteCard id s = (Throw TypeError, mkDataStore cs' (navigationHistory s)))).
Proof.
  intros Hfind. unfold deleteCard. rewrite Hfind.
  destruct (strip_all_cases id (cards s)) as (cs' & Hframe & [[H ->]|[H ->]]);
    exists cs'; (split; [done|]); [left|right]; done.
Qed.

(** On an id that some card has, [deleteCard] returns [true] exactly when
    each reference field of every card of the store is absent, falsy or
    an array; otherwise it throws. *)
Theorem deleteCard_completes (id : string) (s : DataStore) :
  is_Some (getCard id s) →
  ((deleteCard id s).1 = Normal true ↔ Forall (λ c, strippable c = true) (cards s)).
Proof.
  intros [c Hc]. apply getCard_Some in Hc as (index & Hfind & _).
  destruct (deleteCard_cases id s index Hfind) as (cs' & _ & [[H ->]|[H ->]]); simpl.
  - done.
  - split; [done|]. intros H'. by destruct H.
Qed.

Lemma deleteCard_completes_witness :
  (deleteCard "h" world).1 = Normal true.
Proof.
  apply (deleteCard_completes "h" world).
  - exists hero. reflexivity.
  - repeat constructor.
Defined.

(** When [deleteCard] throws, it throws a TypeError, some card has a
    reference field that is truthy and no array, and nothing has been
    removed: the collection has the length it had, the history is as it
    was, and the id is still found. *)
Theorem deleteCard_failure (id : string) (s : DataStore) (e : exn) :
  (deleteCard id s).1 = Throw e →
  e = TypeError ∧
  ¬ Forall (λ c, strippable c = true) (cards s) ∧
  length (cards (deleteCard id s).2) = length (cards s) ∧
  navigationHistory (deleteCard id s).2 = navigationHistory s ∧
  getCard id (deleteCard id s).2 ≠ None.
Proof.
  intros He.
  destruct (findIndex (has_id id) (cards s)) as [index|] eqn:Hfind.
  2:{ unfold deleteCard in He. by rewrite Hfind in He. }
  destruct (deleteCard_cases id s index Hfind) as (cs' & Hframe & [[H Hd]|[H Hd]]);
    rewrite Hd in *; simpl in *; [done|].
  split_and!; [congruence|done|by rewrite (Forall2_length _ _ _ Hframe)|done|].
  rewrite getCard_None. simpl.
  rewrite <- (findIndex_agree (has_id id) (has_id id) (cards s) cs').
  - by rewrite Hfind.
  - by eapply Forall2_length.
  - intros i x y Hx Hy. symmetry. apply frame_has_id.
    by eapply (Forall2_lookup_lr _ _ _ _ _ _ Hframe).
Qed.

Lemma deleteCard_failure_witness :
  length (cards (deleteCard "card_1_aaa" odd_bonds).2) = 1%nat.
Proof.
  destruct (deleteCard_failure "card_1_aaa" odd_bonds TypeError) as (_ & _ & H & _).
  - vm_compute. reflexivity.
  - exact H.
Defined.

Lemma find_delete {A} (p : A → bool) (xs : list A) (i : nat) (x : A) :
  xs !! i = Some x → p x = false → List.find p (delete i xs) = List.find p xs.
Proof.
  revert i. induction xs as [|y xs IH]; intros [|i] Hi Hp; simpl in *; try done.
  - simplify_eq. by rewrite Hp.
  - destruct (p y); [done|]. by apply IH.
Qed.

Lemma find_Forall2 {A B} (R : A → B → Prop) (p : A → bool) (q : B → bool)
    (xs : list A) (ys : list B) :
  Forall2 R xs ys → (∀ x y, R x y → p x = q y) →
  match List.find p xs, List.find q ys with
  | Some x, Some y => R x y
  | None, None => True
  | _, _ => False
  end.
Proof.
  intros H Hpq. induction H as [|x y xs ys Hxy _ IH]; simpl; [done|].
  rewrite <- (Hpq x y Hxy). by destruct (p x).
Qed.

(** After [deleteCard] has removed a card, every other id is found as
    before: an id that was not found is not found, and an id that was
    found is found in the card it was found in, with the deleted id
    taken out of its reference lists. *)
Theorem deleteCard_other_ids (id id' : string) (s s' : DataStore) :
  deleteCard id s = (Normal true, s') →
  id' ≠ id →
  match getCard id' s with
  | Some c => ∃ c', getCard id' s' = Some c' ∧ stripped id c c'
  | None => getCard id' s' = None
  end.
Proof.
  intros Hdel Hne. apply deleteCard_true in Hdel as (index & Hfind & Hrel & _).
  apply findIndex_Some in Hfind as [(c0 & Hc0 & Hp0) _].
  assert (Hp0' : has_id id' c0 = false).
  { apply has_id_card_id in Hp0. rewrite (has_id_str _ _ _ Hp0).
    apply String.eqb_neq. congruence. }
  unfold getCard. rewrite <- (find_delete (has_id id') (cards s) index c0 Hc0 Hp0').
  pose proof (find_Forall2 (stripped id) (has_id id') (has_id id') _ _ Hrel) as H.
  destruct (List.find (has_id id') (delete index (cards s))) as [c|],
           (List.find (has_id id') (cards s')) as [c'|]; try done.
  - exists c'. split; [done|]. apply H. intros x y Hxy. symmetry.
    by apply (stripped_has_id id).
  - exfalso. apply H. intros x y Hxy. symmetry. by apply (stripped_has_id id).
  - exfalso. apply H. intros x y Hxy. symmetry. by apply (stripped_has_id id).
Qed.

Lemma deleteCard_other_ids_witness :
  ∃ c', getCard "t" (deleteCard "m" world).2 = Some c' ∧
        c' !! "adjacentLocations" = Some (VArr []) ∧
        c' !! "name" = Some (VStr "Tavern").
Proof.
  pose proof (deleteCard_other_ids "m" "t" world (deleteCard "m" world).2) as H.
  destruct H as (c' & Hget & Hc').
  - vm_compute. reflexivity.
  - discriminate.
  - exists c'. split_and!; [exact Hget|rewrite (Hc' "adjacentLocations")|rewrite (Hc' "name")];
      reflexivity.
Defined.

Lemma List_filter_all {A} (f : A → bool) (xs : list A) :
  Forall (λ x, f x = true) xs → List.filter f xs = xs.
Proof. induction 1 as [|x xs Hx _ IH]; simpl; [done|]. by rewrite Hx, IH. Qed.

Lemma card_matchesb_empty (c : Card) :
  searchable c = true → card_matchesb "" c = true.
Proof.
  unfold searchable, card_matchesb. intros H.
  destruct (c !! "name") as [[| | |name| | |]|]; try done.
  apply orb_true_iff. left. by destruct (toLowerCase name).
Qed.

(** With the empty query, [searchCards] answers all the cards of the
    store, in their order, when each has a string for a name and, for a
    description, a string or nothing that counts. *)
Theorem searchCards_empty_query (s : DataStore) :
  Forall (λ c, searchable c = true) (cards s) →
  searchCards "" s = Normal (cards s).
Proof.
  intros Hs. unfold searchCards.
  rewrite (filter_completion_Normal _ (card_matchesb "")).
  - f_equal. apply List_filter_all. eapply Forall_impl; [exact Hs|].
    intros c. apply card_matchesb_empty.
  - intros c Hc. rewrite Forall_forall in Hs.
    by apply (search_match_searchable ""), Hs.
Qed.

Lemma searchCards_empty_query_witness :
  searchCards "" world = Normal [tavern; market; hero].
Proof.
  apply (searchCards_empty_query world). repeat constructor.
Defined.

(** [searchCards] throws nothing but a TypeError, and only when some
    card has a name that is no string or a truthy description that is no
    string. *)
Theorem searchCards_failure (query : string) (s : DataStore) (e : exn) :
  searchCards query s = Throw e →
  e = TypeError ∧ Exists (λ c, searchable c = false) (cards s).
Proof.
  unfold searchCards. induction (cards s) as [|c cs IH]; simpl; [done|].
  destruct (search_match (toLowerCase query) c) as [b|e'] eqn:Hc; simpl.
  - destruct (filter_completion (search_match (toLowerCase query)) cs) as [ys|e'']; simpl;
      [done|].
    intros H. destruct (IH H) as [-> Hex]. split; [done|]. by apply Exists_cons_tl.
  - intros [= ->]. split; [by eapply search_match_throws|].
    apply Exists_cons_hd. destruct (searchable c) eqn:Hs; [|done].
    rewrite (search_match_searchable query c Hs) in Hc. done.
Qed.

Lemma searchCards_failure_witness :
  Exists (λ c, searchable c = false) (cards nameless).
Proof.
  apply (searchCards_failure "x" nameless TypeError). vm_compute. reflexivity.
Defined.

(** ** The exchange module *)

Lemma second_pass_appends (env : ImportEnv) (m : gmap string string)
    (entries : list value) :
  ∀ (k : nat) (cs : list Card) (n : nat),
  ∃ new,
    (second_pass env k m entries cs n).2 = cs ++ new ∧
    ∀ n', (second_pass env k m entries cs n).1 = Normal n' →
          n' = (n + length entries)%nat ∧ length new = length entries.
Proof.
  induction entries as [|e rest IH]; intros k cs n; simpl.
  - exists []. rewrite app_nil_r. split; [done|]. intros n' [= <-]. split; [lia|done].
  - destruct (import_card env k m e) as [c'|err]; simpl.
    + destruct (IH (S k) (cs ++ [c']) (S n)) as (new & Hcs & Hn).
      exists (c' :: new). rewrite Hcs, <- app_assoc. split; [done|].
      intros n' Hn'. destruct (Hn n' Hn') as [-> Hlen]. simpl. split; lia.
    + exists []. rewrite app_nil_r. split; [done|]. done.
Qed.

(** Whatever is imported, [importCards] removes no card: the collection
    it leaves holds the cards of the store and new ones, and the history
    is as it was.  A success toast with the number [n] is shown only for
    a document whose [cards] is an array of [n] entries, and [n] cards
    have been added. *)
Theorem importCards_additive (ui : Ui) (env : ImportEnv)
    (parsed : completion value) (s : DataStore) :
  sort_conforms ui →
  let r := importCards ui env parsed s in
  ∃ new,
    cards r.2 ≡ₚ cards s ++ new ∧
    navigationHistory r.2 = navigationHistory s ∧
    ∀ n, r.1 = ToastSuccess n →
      length new = n ∧
      ∃ o entries, parsed = Normal (VObj o) ∧ o !! "cards" = Some (VArr entries) ∧
                   length entries = n.
Proof.
  intros Hui. cbv zeta. unfold importCards, import_try.
  assert (Hsame : ∃ new, cards s ≡ₚ cards s ++ new ∧
            navigationHistory s = navigationHistory s ∧
            ∀ n, ToastError = ToastSuccess n →
              length new = n ∧
              ∃ o entries, parsed = Normal (VObj o) ∧ o !! "cards" = Some (VArr entries) ∧
                           length entries = n).
  { exists []. by rewrite app_nil_r. }
  destruct parsed as [data|e]; [|exact Hsame].
  destruct data as [| | | | |o|]; simpl; try exact Hsame.
  destruct (o !! "cards") as [[| | | |entries| |]|] eqn:Ho; simpl; try exact Hsame.
  destruct (first_pass env 0 entries ∅) as [m|e]; [|exact Hsame].
  destruct (second_pass_appends env m entries 0 (cards s) 0) as (new & Hcs & Hn).
  destruct (second_pass env 0 m entries (cards s) 0) as [[n|e] cs]; simpl in *.
  - pose proof (render_Permutation ui cs Hui) as Hperm.
    exists new. destruct (render ui cs) as [[u|e] cs']; simpl in *.
    + split_and!; [by rewrite Hperm, Hcs|done|]. intros n' [= <-].
      destruct (Hn n eq_refl) as [-> Hlen]. split; [done|]. by exists o, entries.
    + split_and!; [by rewrite Hperm, Hcs|done|done].
  - exists new. split_and!; [by rewrite Hcs|done|done].
Qed.

Lemma importCards_additive_witness :
  ∃ new, cards (importCards page_all env_distinct
                  (Normal (VObj (document [VObj hero]))) world).2
           ≡ₚ cards world ++ new.
Proof.
  destruct (importCards_additive page_all env_distinct
              (Normal (VObj (document [VObj hero]))) world) as (new & H & _).
  - by apply insertion_sort_conforms.
  - by exists new.
Defined.

Lemma first_pass_null (env : ImportEnv) (entries : list value) :
  VNull ∈ entries → ∀ k m, ∃ e, first_pass env k entries m = Throw e.
Proof.
  induction entries as [|x rest IH]; intros Hin k m.
  { by apply elem_of_nil in Hin. }
  apply elem_of_cons in Hin as [<-|Hin]; simpl.
  { by exists TypeError. }
  destruct (read_prop "id" x) as [oldId|e]; simpl; [|by exists e].
  destruct (toPropertyKey oldId) as [key|e]; simpl; [|by exists e].
  by apply IH.
Qed.

(** A document whose [cards] holds a [null] is rejected as a whole: the
    error toast is shown and the store is as it was, whatever the other
    entries are. *)
Theorem importCards_null_entry (ui : Ui) (env : ImportEnv) (s : DataStore)
    (o : Card) (entries : list value) :
  o !! "cards" = Some (VArr entries) →
  VNull ∈ entries →
  importCards ui env (Normal (VObj o)) s = (ToastError, s).
Proof.
  intros Ho Hnull. unfold importCards, import_try. simpl. rewrite Ho.
  destruct (first_pass_null env entries Hnull 0%nat ∅) as [e ->]. done.
Qed.

Lemma importCards_null_entry_witness :
  importCards page_all env_distinct
    (Normal (VObj (document [VObj tavern; VNull; VObj hero]))) world
    = (ToastError, world).
Proof.
  apply (importCards_null_entry page_all env_distinct world _
           [VObj tavern; VNull; VObj hero]).
  - reflexivity.
  - apply list_elem_of_further, list_elem_of_here.
Defined.

Lemma first_pass_string_ids (env : ImportEnv) (entries : list value) :
  ∀ (k0 : nat) (m0 : gmap string string),
  Forall (λ e, is_Some (entry_id e)) entries →
  ∃ m, first_pass env k0 entries m0 = Normal m ∧
    (∀ key, is_Some (m0 !! key) → is_Some (m !! key)) ∧
    (∀ e key, e ∈ entries → entry_id e = Some key →
       key ≠ "__proto__" → is_Some (m !! key)).
Proof.
  induction entries as [|e rest IH]; intros k0 m0 Hty.
  - exists m0. split_and!; [done|done|]. intros e key He. by apply elem_of_nil in He.
  - apply Forall_cons in Hty as [[id Hid] Hrest].
    destruct e as [| | | | |c|]; try done. simpl in Hid.
    assert (Hcid : c !! "id" = Some (VStr id)).
    { unfold card_id in Hid. by destruct (c !! "id") as [[]|]; simplify_eq. }
    simpl. rewrite Hcid. simpl.
    destruct (IH (S k0) (idMapping_set id (fresh_id env k0) m0) Hrest)
      as (m & -> & Hmono & Hdom).
    assert (Hmono' : ∀ key, is_Some (m0 !! key) → is_Some (m !! key)).
    { intros key Hkey. apply Hmono. unfold idMapping_set.
      destruct (String.eqb id "__proto__"); [done|].
      destruct (decide (id = key)) as [->|Hne];
        [by rewrite lookup_insert_eq|by rewrite lookup_insert_ne]. }
    exists m. split_and!; [done|done|].
    intros e key He Hkey Hproto. apply elem_of_cons in He as [->|He].
    + simpl in Hkey. rewrite Hid in Hkey. injection Hkey as <-.
      apply Hmono. unfold idMapping_set.
      rewrite (proj2 (String.eqb_neq _ _)) by done. by rewrite lookup_insert_eq.
    + by eapply Hdom.
Qed.

Lemma second_pass_app (env : ImportEnv) (m : gmap string string)
    (es1 es2 : list value) :
  ∀ (k : nat) (cs : list Card) (n : nat),
  second_pass env k m (es1 ++ es2) cs n =
    match second_pass env k m es1 cs n with
    | (Normal n1, cs1) => second_pass env (k + length es1) m es2 cs1 n1
    | (Throw e, cs1) => (Throw e, cs1)
    end.
Proof.
  induction es1 as [|e es1 IH]; intros k cs n; simpl.
  - by rewrite Nat.add_0_r.
  - destruct (import_card env k m e) as [c'|err]; [|done].
    rewrite IH. by replace (S k + length es1)%nat with (k + S (length es1))%nat by lia.
Qed.

Lemma remap_field_cases (m : gmap string string) (f : string) (c : Card) :
  (∃ c', remap_field m f c = Normal c' ∧ ∀ g, g ≠ f → c' !! g = c !! g) ∨
  (∃ e, remap_field m f c = Throw e).
Proof.
  unfold remap_field. destruct (c !! f) as [v|]; [|left; eauto].
  destruct (truthy v); [|left; eauto].
  destruct v as [| | | |xs| |]; try (by right; eexists).
  destruct (map_completion (remap_ref m) xs) as [ys|e]; simpl; [|by right; eexists].
  left. eexists. split; [done|]. intros g Hg. by rewrite lookup_insert_ne.
Qed.

Lemma remap_field_not_array (m : gmap string string) (f : string) (c : Card)
    (v : value) :
  c !! f = Some v → truthy v = true → is_array v = false →
  remap_field m f c = Throw TypeError.
Proof.
  unfold remap_field. intros -> -> Hv. by destruct v.
Qed.

Lemma import_card_not_array (env : ImportEnv) (k : nat) (m : gmap string string)
    (c : Card) (f : string) (v : value) :
  is_Some (card_id c) →
  f ∈ ref_fields → c !! f = Some v → truthy v = true → is_array v = false →
  ∃ e, import_card env k m (VObj c) = Throw e.
Proof.
  intros [id Hid] Hf Hv Ht Ha.
  assert (Hcid : c !! "id" = Some (VStr id)).
  { unfold card_id in Hid. by destruct (c !! "id") as [[]|]; simplify_eq. }
  unfold import_card. simpl. rewrite Hcid. simpl.
  set (c0 := set_prop "id" (idMapping_get m id) c).
  assert (Hc0 : ∀ g, g ≠ "id" → c0 !! g = c !! g).
  { intros g Hg. unfold c0, set_prop. destruct (idMapping_get m id).
    - by rewrite lookup_insert_ne.
    - by rewrite lookup_delete_ne. }
  destruct (ref_fields_other f Hf) as (_ & _ & Hfid).
  apply ref_fields_spec in Hf.
  destruct (remap_field_cases m "adjacentLocations" c0) as [(c1 & H1 & E1)|[e H1]];
    rewrite H1; [|by exists e].
  destruct (decide (f = "adjacentLocations")) as [->|Hn1].
  { rewrite (remap_field_not_array m "adjacentLocations" c0 v) in H1; [done|..|done|done].
    by rewrite Hc0. }
  rewrite bind_Normal.
  destruct (remap_field_cases m "presentCharacters" c1) as [(c2 & H2 & E2)|[e H2]];
    rewrite H2; [|by exists e].
  destruct (decide (f = "presentCharacters")) as [->|Hn2].
  { rewrite (remap_field_not_array m "presentCharacters" c1 v) in H2; [done|..|done|done].
    by rewrite E1, Hc0. }
  rewrite bind_Normal.
  assert (f = "bonds") as -> by tauto.
  rewrite (remap_field_not_array m "bonds" c2 v); [by exists TypeError|..|done|done].
  by rewrite E2, E1, Hc0.
Qed.

(** An import is not atomic.  When the last entry of the document has a
    reference field that is truthy and no array, and the entries before
    it are cards as the data model has them, the error toast is shown,
    yet the cards of the entries before it have been added to the
    store, after the cards the store had. *)
Theorem importCards_partial (ui : Ui) (env : ImportEnv) (s : DataStore) (o : Card)
    (good : list value) (c : Card) (f : string) (v : value) :
  o !! "cards" = Some (VArr (good ++ [VObj c])) →
  Forall (λ e, typed_entry e = true) good →
  is_Some (card_id c) →
  f ∈ ref_fields → c !! f = Some v → truthy v = true → is_array v = false →
  let r := importCards ui env (Normal (VObj o)) s in
  r.1 = ToastError ∧
  length (cards r.2) = (length (cards s) + length good)%nat ∧
  take (length (cards s)) (cards r.2) = cards s ∧
  navigationHistory r.2 = navigationHistory s.
Proof.
  intros Ho Hgood Hc Hf Hv Ht Ha. cbv zeta.
  unfold importCards, import_try. simpl. rewrite Ho.
  destruct (first_pass_string_ids env (good ++ [VObj c]) 0 ∅) as (m & -> & _ & Hdom).
  { apply Forall_app. split.
    - eapply Forall_impl; [exact Hgood|]. intros e He.
      destruct (typed_entry_inv e He) as (c' & id & -> & _ & _ & Hid). by exists id.
    - by repeat constructor. }
  rewrite second_pass_app.
  destruct (second_pass_Normal env m good 0 (cards s) 0) as (new & -> & Hlen & _).
  { intros j e Hj.
    assert (He : typed_entry e = true).
    { rewrite Forall_forall in Hgood. apply Hgood, list_elem_of_lookup. eauto. }
    destruct (typed_entry_inv e He) as (c' & id & -> & Hc' & _ & _).
    destruct (import_card_typed env (0 + j) m c' Hc') as (c'' & Hc'' & _); [|eauto].
    intros id' Hid'. apply idMapping_get_is_Some. intros Hne.
    apply (Hdom (VObj c') id'); [|done|done].
    apply elem_of_app. left. apply list_elem_of_lookup. eauto. }
  destruct (import_card_not_array env (0 + length good) m c f v Hc Hf Hv Ht Ha) as [e He].
  assert (Hbad : second_pass env (0 + length good) m [VObj c] (cards s ++ new)
                   (0 + length good) = (Throw e, cards s ++ new)).
  { unfold second_pass. by rewrite He. }
  cbv beta iota. rewrite Hbad. simpl.
  split_and!; [done|by rewrite length_app, Hlen|by rewrite take_app_length|done].
Qed.

Lemma importCards_partial_witness :
  let r := importCards page_all env_distinct (Normal (VObj half_good)) world in
  r.1 = ToastError ∧ length (cards r.2) = 5%nat.
Proof.
  cbv zeta.
  destruct (importCards_partial page_all env_distinct world half_good
              [VObj tavern; VObj market]
              {["id" := VStr "z"; "name" := VStr "Z"; "bonds" := VStr "h"]}
              "bonds" (VStr "h")) as (H1 & H2 & _).
  - reflexivity.
  - repeat constructor.
  - exists "z". reflexivity.
  - apply ref_fields_spec. auto.
  - reflexivity.
  - reflexivity.
  - reflexivity.
  - split; [exact H1|exact H2].
Defined.

(** What an imported card holds.  There is one renaming of ids for the
    whole document: an id of no card of the document stays as it is (a
    name of [Object.prototype] apart), the id of a card of the document
    becomes the id made for a card of the document that has it (the id
    ['__proto__'] apart).  The
    card made from the [j]-th entry has the time stamps of the import,
    the renamed id, the other plain fields of the entry, and in each
    reference list the renamed ids, the falsy ones left out. *)
Theorem importCards_fields (ui : Ui) (env : ImportEnv) (s : DataStore) (o : Card)
    (entries : list value) :
  sort_conforms ui →
  o !! "cards" = Some (VArr entries) →
  Forall (λ e, typed_entry e = true) entries →
  let r := importCards ui env (Normal (VObj o)) s in
  ∃ (ρ : value → value) (new : list Card),
    cards r.2 ≡ₚ cards s ++ new ∧
    (∀ id, Some id ∉ entry_id <$> entries →
       ρ (VStr id) =
         if bool_decide (id ∈ Object_prototype_names) then VBuiltin id else VStr id) ∧
    (∀ id, Some id ∈ entry_id <$> entries → id ≠ "__proto__" →
       ∃ k e, entries !! k = Some e ∧ entry_id e = Some id ∧
              ρ (VStr id) = VStr (fresh_id env k)) ∧
    ∀ j c, entries !! j = Some (VObj c) →
      ∃ c', new !! j = Some c' ∧
        c' !! "createdAt" = Some (VStr (toISOString (created_now env j))) ∧
        c' !! "updatedAt" = Some (VStr (toISOString (updated_now env j))) ∧
        (∀ id, card_id c = Some id → id ≠ "__proto__" →
           c' !! "id" = Some (ρ (VStr id))) ∧
        (∀ f, f ∉ ["id"; "createdAt"; "updatedAt"] → f ∉ ref_fields →
           c' !! f = c !! f) ∧
        (∀ f, f ∈ ref_fields → c !! f = None → c' !! f = None) ∧
        (∀ f xs, f ∈ ref_fields → c !! f = Some (VArr xs) →
           c' !! f = Some (VArr (List.filter truthy (ρ <$> xs)))).
Proof.
  intros Hui Ho Hty. cbv zeta.
  destruct (importCards_typed ui env s o entries Hui Ho Hty)
    as (m & new & Hperm & _ & _ & Hlen & Hnew & Hprov & Hdom).
  exists (remap_value m), new.
  assert (Hmapped : ∀ id newId, m !! id = Some newId →
            ∃ k e, entries !! k = Some e ∧ entry_id e = Some id ∧
                   remap_value m (VStr id) = VStr (fresh_id env k)).
  { intros id newId Hm. destruct (Hprov id newId Hm) as (k & e & Hk & He & ->).
    exists k, e. split_and!; [done|done|].
    simpl. unfold remap_id, idMapping_get. rewrite Hm. done. }
  split_and!; [done|..].
  - intros id Hid. simpl. unfold remap_id, idMapping_get.
    destruct (m !! id) as [newId|] eqn:Hm.
    + exfalso. apply Hid. destruct (Hprov id newId Hm) as (k & e & Hk & He & _).
      apply list_elem_of_fmap. exists e. split; [done|].
      apply list_elem_of_lookup. eauto.
    + by destruct (bool_decide (id ∈ Object_prototype_names)).
  - intros id Hid Hproto. apply list_elem_of_fmap in Hid as (e & He & Hin).
    apply list_elem_of_lookup in Hin as [j Hj].
    destruct (Hdom j e id Hj (eq_sym He) Hproto) as [newId Hm]. by eapply Hmapped.
  - intros j c Hj. destruct (Hnew j c Hj) as (c' & Hc' & Hfields).
    exists c'. split_and!; [done|..].
    + by rewrite Hfields.
    + by rewrite Hfields.
    + intros id Hid Hproto. rewrite Hfields. unfold imported_field. simpl.
      rewrite Hid. simpl.
      destruct (Hdom j (VObj c) id Hj Hid Hproto) as [newId Hm].
      unfold remap_id, idMapping_get. rewrite Hm. simpl.
      destruct (Hprov id newId Hm) as (k & e & _ & _ & ->). done.
    + intros f Hf Hrf. rewrite Hfields. unfold imported_field.
      rewrite !elem_of_cons, elem_of_nil in Hf.
      repeat (rewrite decide_False by tauto). done.
    + intros f Hf Hcf. rewrite Hfields. unfold imported_field.
      destruct (ref_fields_other f Hf) as (? & ? & _).
      rewrite decide_False, decide_False, decide_True by done. by rewrite Hcf.
    + intros f xs Hf Hcf. rewrite Hfields. unfold imported_field.
      destruct (ref_fields_other f Hf) as (? & ? & _).
      rewrite decide_False, decide_False, decide_True by done. by rewrite Hcf.
Qed.

Lemma importCards_fields_witness :
  ∃ new c',
    cards (importCards page_all env_distinct
             (Normal (VObj (document [VObj dangling]))) world).2 ≡ₚ cards world ++ new ∧
    new !! 0%nat = Some c' ∧
    c' !! "name" = Some (VStr "A") ∧
    c' !! "bonds" = Some (VArr [VStr "h"; VStr (fresh_id env_distinct 0)]).
Proof.
  destruct (importCards_fields page_all env_distinct world
              (document [VObj dangling]) [VObj dangling])
    as (ρ & new & Hperm & Hout & Hin & Hcards).
  - by apply insertion_sort_conforms.
  - reflexivity.
  - repeat constructor.
  - destruct (Hcards 0%nat _ eq_refl) as (c' & Hc' & _ & _ & _ & Hplain & _ & Hrefs).
    exists new, c'. split_and!; [exact Hperm|exact Hc'| |].
    + rewrite Hplain; [reflexivity| |].
      * apply (bool_decide_unpack _). vm_compute. exact I.
      * apply (bool_decide_unpack _). vm_compute. exact I.
    + rewrite (Hrefs "bonds" [VStr "h"; VStr ""; VStr "a"]);
        [|apply ref_fields_spec; auto|reflexivity].
      simpl. rewrite (Hout "h"), (Hout "").
      * destruct (Hin "a") as (k & e & Hk & He & ->).
        -- apply list_elem_of_here.
        -- discriminate.
        -- destruct k as [|k]; [reflexivity|]. simpl in Hk. done.
      * apply (bool_decide_unpack _). vm_compute. exact I.
      * apply (bool_decide_unpack _). vm_compute. exact I.
Defined.

(** [exportCards] writes nothing exactly when the store has no card.
    The document it writes has the version ["1.0"], the date of the
    export and one object for each card of the store, and [importCards]
    does not reject it as malformed. *)
Theorem exportCards_shape (now : Z) (s : DataStore) :
  (exportCards now s = None ↔ cards s = []) ∧
  ∀ data, exportCards now s = Some data →
    ∃ (o : Card) (entries : list value),
      data = VObj o ∧
      o !! "version" = Some (VStr "1.0") ∧
      o !! "exportDate" = Some (VStr (toISOString now)) ∧
      o !! "cards" = Some (VArr entries) ∧
      length entries = length (cards s) ∧
      (∀ k e, entries !! k = Some e → ∃ c, e = VObj c) ∧
      malformed (Normal data) = false.
Proof.
  unfold exportCards, getAllCards. destruct (cards s) as [|c cs] eqn:Hcs.
  { split; [done|]. intros data H. discriminate H. }
  rewrite <- Hcs. split.
  { split; intros H; [simpl in H; discriminate H|rewrite Hcs in H; discriminate H]. }
  clear Hcs c cs. simpl.
  intros data [= <-]. eexists _, _. split; [done|].
  rewrite !lookup_omap.
  rewrite lookup_insert_ne, lookup_insert_ne, lookup_singleton_eq by done.
  rewrite lookup_insert_ne, lookup_insert_eq by done.
  rewrite lookup_insert_eq. simpl.
  split_and!; [done|done|done|by rewrite length_map, length_fmap| |].
  - intros k e Hk. apply list_elem_of_lookup_2 in Hk.
    apply list_elem_of_In, in_map_iff in Hk as (x & <- & Hx).
    apply list_elem_of_In, list_elem_of_fmap in Hx as (c & -> & _). simpl. eauto.
  - by rewrite lookup_omap, lookup_insert_eq.
Qed.

(** ** The list of cards *)

Lemma type_rank_listable (c : Card) :
  listable c = true →
  ∃ key, toPropertyKey (c !! "type") = Normal key ∧
         (c !! "type" = Some (VStr key) ∨ c !! "type" = None ∧ key = "undefined").
Proof.
  unfold listable. intros [_ H]%andb_prop.
  destruct (c !! "type") as [[]|]; try done; simpl; eauto.
Qed.

Lemma compare_cards_listable (ui : Ui) (a b : Card) :
  listable a = true → listable b = true → ∃ n, compare_cards ui a b = Normal n.
Proof.
  intros Ha Hb.
  destruct (type_rank_listable a Ha) as (ka & Hka & _).
  destruct (type_rank_listable b Hb) as (kb & Hkb & _).
  unfold compare_cards, type_rank. rewrite Hka, Hkb. simpl.
  unfold listable in Ha, Hb.
  apply andb_prop in Ha as [Ha _]. apply andb_prop in Hb as [Hb _].
  destruct (a !! "name") as [[| | |na| | |]|]; try done.
  destruct (b !! "name") as [[| | |nb| | |]|]; try done. simpl.
  repeat case_match; eauto.
Qed.

Lemma renderCardsList_listable (ui : Ui) (cs : list Card) :
  sort_conforms ui → Forall (λ c, listable c = true) cs →
  (renderCardsList ui cs).1 = Normal ().
Proof.
  intros Hui Hcs.
  destruct (renderCardsList ui cs).1 as [[]|e] eqn:Hr; [done|].
  destruct (renderCardsList_Throw ui cs e Hui Hr) as (a & b & Ha & Hb & Hab).
  rewrite Forall_forall in Hcs.
  destruct (compare_cards_listable ui a b (Hcs a Ha) (Hcs b Hb)) as [n Hn].
  congruence.
Qed.

Lemma typeOrder_rank (key : string) :
  key ∉ Object_prototype_names →
  match typeOrder key with
  | Some v => if truthy v then match v with VNum n => Some n | _ => None end else Some 99
  | None => Some 99
  end = Some (rank_of_type key).
Proof.
  intros Hkey. unfold typeOrder, rank_of_type.
  destruct (String.eqb_spec key "evento") as [->|_]; [done|].
  destruct (String.eqb key "local"); [done|].
  destruct (String.eqb key "personagem"); [done|].
  by rewrite bool_decide_eq_false_2.
Qed.

(** The order of the list of cards.  Two cards whose types rank apart
    compare by the ranks: 1 for a location, 2 for a character, 99 for
    every other type, the events among them.  Two cards of one rank
    compare by their names, and the comparison throws a TypeError when
    the first of them has no string for a name. *)
Theorem compare_cards_by_type (ui : Ui) (a b : Card) (ta tb : string) :
  a !! "type" = Some (VStr ta) → b !! "type" = Some (VStr tb) →
  ta ∉ Object_prototype_names → tb ∉ Object_prototype_names →
  (rank_of_type ta ≠ rank_of_type tb →
     compare_cards ui a b = Normal (rank_of_type ta - rank_of_type tb)) ∧
  (∀ na nb, rank_of_type ta = rank_of_type tb →
     a !! "name" = Some (VStr na) → b !! "name" = Some (VStr nb) →
     compare_cards ui a b = Normal (localeCompare ui na nb)) ∧
  (rank_of_type ta = rank_of_type tb →
     (∀ na, a !! "name" ≠ Some (VStr na)) →
     compare_cards ui a b = Throw TypeError) ∧
  rank_of_type "evento" = 99.
Proof.
  intros Ha Hb Hta Htb. unfold compare_cards, type_rank. rewrite Ha, Hb. simpl.
  rewrite (typeOrder_rank ta Hta), (typeOrder_rank tb Htb).
  split_and!; [| | |done].
  - intros Hne. destruct (Z.eqb_spec (rank_of_type ta - rank_of_type tb) 0); [lia|done].
  - intros na nb Heq Hna Hnb. rewrite Heq, Z.sub_diag. simpl. by rewrite Hna, Hnb.
  - intros Heq Hna. rewrite Heq, Z.sub_diag. simpl.
    destruct (a !! "name") as [[| | |na| | |]|]; try done. by destruct (Hna na).
Qed.

Lemma compare_cards_by_type_witness :
  compare_cards page_all tavern hero = Normal (-1) ∧
  compare_cards page_all {["type" := VStr "evento"; "name" := VStr "Fire"]} hero
    = Normal 97.
Proof.
  split.
  - destruct (compare_cards_by_type page_all tavern hero "local" "personagem")
      as (H & _); [reflexivity|reflexivity| | |].
    + apply (bool_decide_unpack _). reflexivity.
    + apply (bool_decide_unpack _). reflexivity.
    + apply H. discriminate.
  - destruct (compare_cards_by_type page_all
                {["type" := VStr "evento"; "name" := VStr "Fire"]} hero
                "evento" "personagem")
      as (H & _); [reflexivity|reflexivity| | |].
    + apply (bool_decide_unpack _). reflexivity.
    + apply (bool_decide_unpack _). reflexivity.
    + apply H. discriminate.
Defined.

(** [renderCardsList] keeps the cards of the store and reorders them at
    most; under a filter other than ['all'] it leaves their order as it
    was.  It sorts without failure when every card has a string for a
    name and a string or nothing for a type, and when it throws, the
    comparator has thrown on two cards of the store, one of which is no
    such card. *)
Theorem renderCardsList_spec (ui : Ui) (cs : list Card) :
  sort_conforms ui →
  (renderCardsList ui cs).2 ≡ₚ cs ∧
  (currentFilter ui ≠ "all" → (renderCardsList ui cs).2 = cs) ∧
  (Forall (λ c, listable c = true) cs → (renderCardsList ui cs).1 = Normal ()) ∧
  (∀ e, (renderCardsList ui cs).1 = Throw e →
     ∃ a b, a ∈ cs ∧ b ∈ cs ∧ compare_cards ui a b = Throw e ∧
            (listable a = false ∨ listable b = false)).
Proof.
  intros Hui. split_and!.
  - by apply renderCardsList_Permutation.
  - intros Hf. unfold renderCardsList.
    destruct (String.eqb_spec (currentFilter ui) "all"); done.
  - by apply renderCardsList_listable.
  - intros e He.
    destruct (renderCardsList_Throw ui cs e Hui He) as (a & b & Ha & Hb & Hab).
    exists a, b. split_and!; [done|done|done|].
    destruct (listable a) eqn:Hla; [|by left].
    destruct (listable b) eqn:Hlb; [|by right].
    destruct (compare_cards_listable ui a b Hla Hlb) as [n Hn]. congruence.
Qed.

Lemma renderCardsList_spec_witness :
  (renderCardsList page_all (cards world)).1 = Normal () ∧
  (renderCardsList page_locals (cards world)).2 = cards world.
Proof.
  destruct (renderCardsList_spec page_all (cards world)) as (_ & _ & H1 & _);
    [by apply insertion_sort_conforms|].
  destruct (renderCardsList_spec page_locals (cards world)) as (_ & H2 & _);
    [by apply insertion_sort_conforms|].
  split; [apply H1; repeat constructor|apply H2; discriminate].
Defined.

(** The toast of an import of cards as the data model has them.  The
    success toast with the number of the entries is shown when the cards
    of the store and those of the document have strings for names and
    strings or nothing for types, and the page is written without
    failure.  When it is not shown, the error toast is, all the cards of
    the document have been added all the same, and either the writing of
    the page or a comparison of two cards of the store has thrown. *)
Theorem importCards_toast (ui : Ui) (env : ImportEnv) (s : DataStore) (o : Card)
    (entries : list value) :
  sort_conforms ui →
  o !! "cards" = Some (VArr entries) →
  Forall (λ e, typed_entry e = true) entries →
  let r := importCards ui env (Normal (VObj o)) s in
  (Forall (λ c, listable c = true) (cards s) →
   Forall (λ e, listable_entry e = true) entries →
   (∀ cs, write_page ui cs = Normal ()) →
   r.1 = ToastSuccess (length entries)) ∧
  (r.1 ≠ ToastSuccess (length entries) →
   r.1 = ToastError ∧
   length (cards r.2) = (length (cards s) + length entries)%nat ∧
   ((∃ cs e, write_page ui cs = Throw e) ∨
    ∃ a b e, a ∈ cards r.2 ∧ b ∈ cards r.2 ∧ compare_cards ui a b = Throw e)).
Proof.
  intros Hui Ho Hty. cbv zeta.
  destruct (importCards_typed ui env s o entries Hui Ho Hty)
    as (m & new & Hperm & _ & Htoast & Hlen & Hnew & _ & _).
  rewrite Htoast. split.
  - intros Hs Hentries Hpage.
    assert (Hall : Forall (λ c, listable c = true) (cards s ++ new)).
    { apply Forall_app. split; [done|]. apply Forall_forall. intros c' Hc'.
      apply list_elem_of_lookup in Hc' as [j Hj].
      assert (Hjlt : (j < length entries)%nat).
      { rewrite <- Hlen. by eapply lookup_lt_Some. }
      destruct (lookup_lt_is_Some_2 entries j Hjlt) as [e He].
      assert (Hte : typed_entry e = true).
      { rewrite Forall_forall in Hty. apply Hty, list_elem_of_lookup. eauto. }
      assert (Hle : listable_entry e = true).
      { rewrite Forall_forall in Hentries. apply Hentries, list_elem_of_lookup. eauto. }
      destruct e as [| | | | |c|]; try done.
      destruct (Hnew j c He) as (c'' & Hc'' & Hfields).
      assert (c'' = c') by congruence. subst c''.
      unfold listable in *. rewrite !Hfields. unfold imported_field.
      rewrite !decide_False
        by first [discriminate | apply (bool_decide_unpack _); reflexivity].
      done. }
    unfold render.
    pose proof (renderCardsList_listable ui (cards s ++ new) Hui Hall) as Hr.
    destruct (renderCardsList ui (cards s ++ new)) as [[u|e] cs']; [|done].
    simpl. by rewrite Hpage.
  - intros Hne.
    destruct (render ui (cards s ++ new)).1 as [u|e] eqn:Hr; [done|].
    split_and!; [done|by rewrite Hperm, length_app, Hlen|].
    unfold render in Hr.
    destruct (renderCardsList ui (cards s ++ new)) as [[u|e'] cs'] eqn:Hrl; simpl in Hr.
    + left. eauto.
    + right. injection Hr as ->.
      destruct (renderCardsList_Throw ui (cards s ++ new) e Hui) as (a & b & Ha & Hb & Hab).
      { by rewrite Hrl. }
      exists a, b, e. by rewrite Hperm.
Qed.

Lemma importCards_toast_witness :
  (importCards page_all env_distinct (Normal (VObj (document [VObj tavern; VObj market])))
     three_cards).1 = ToastSuccess 2 ∧
  (importCards page_all env_distinct
     (Normal (VObj (document (VObj <$> nameless_events)))) empty_store).1 = ToastError.
Proof.
  destruct (importCards_toast page_all env_distinct three_cards
              (document [VObj tavern; VObj market]) [VObj tavern; VObj market])
    as (H1 & _).
  - by apply insertion_sort_conforms.
  - reflexivity.
  - repeat constructor.
  - destruct (importCards_toast page_all env_distinct empty_store
                (document (VObj <$> nameless_events)) (VObj <$> nameless_events))
      as (_ & H2).
    + by apply insertion_sort_conforms.
    + reflexivity.
    + repeat constructor.
    + split.
      * apply H1; [repeat constructor|repeat constructor|done].
      * apply H2. assert (Hr : (importCards page_all env_distinct
            (Normal (VObj (document (VObj <$> nameless_events)))) empty_store).1
            = ToastError) by (vm_compute; reflexivity).
        rewrite Hr. discriminate.
Defined.

(** ** The form and its image *)

(** [setCardImageData], [editCard] and [clearCardImageData] leave the
    image [null] or truthy, and no position [null]. *)
Theorem setCardImageData_ok (image positionX positionY : option value) :
  image_ok (setCardImageData image positionX positionY) ∧
  (∀ c, image_ok (editCard_image c)) ∧
  image_ok clearCardImageData.
Proof.
  assert (Hset : ∀ i x y, image_ok (setCardImageData i x y)).
  { intros i x y. unfold image_ok, setCardImageData. split_and!.
    - destruct i as [v|]; simpl; [|by destruct y, x; left].
      destruct (truthy v) eqn:Hv; destruct y, x; simpl; auto.
    - destruct y as [[]|], x as [[]|]; simpl; done.
    - destruct y as [[]|], x as [[]|]; simpl; try done; by repeat case_match. }
  split_and!; [apply Hset| |].
  - intros c. unfold editCard_image. destruct (c !! "imagePositionX"); apply Hset.
  - unfold image_ok. simpl. auto.
Qed.

(** [editCard] on a card saved without [imagePositionY].  The horizontal
    position is 50.  The vertical one is that of the old single
    [imagePosition] when the card has no [imagePositionX] (['top'] is 0,
    ['bottom'] 100, another string 50, a number itself, none 50), and
    the number in [imagePositionX] when the card has one. *)
Theorem editCard_image_legacy (c : Card) :
  c !! "imagePositionY" = None →
  currentImagePositionX (editCard_image c) = VNum 50 ∧
  (∀ p, c !! "imagePositionX" = None → c !! "imagePosition" = Some (VStr p) →
     currentImagePositionY (editCard_image c) =
       if String.eqb p "top" then VNum 0
       else if String.eqb p "bottom" then VNum 100 else VNum 50) ∧
  (∀ n, c !! "imagePositionX" = None → c !! "imagePosition" = Some (VNum n) →
     currentImagePositionY (editCard_image c) = VNum n) ∧
  (c !! "imagePositionX" = None → c !! "imagePosition" = None →
     currentImagePositionY (editCard_image c) = VNum 50) ∧
  (∀ n, c !! "imagePositionX" = Some (VNum n) →
     currentImagePositionY (editCard_image c) = VNum n).
Proof.
  intros Hy. unfold editCard_image, setCardImageData. rewrite Hy. split_and!.
  - by destruct (c !! "imagePositionX") as [[]|], (c !! "imagePosition") as [[]|].
  - by intros p -> ->.
  - by intros n -> ->.
  - by intros -> ->.
  - by intros n ->.
Qed.

Lemma editCard_image_legacy_witness :
  editCard_image {["name" := VStr "Old"; "image" := VStr "data:x"; "imagePosition" := VStr "top"]}
    = mkImageData (VStr "data:x") (VNum 50) (VNum 0).
Proof.
  pose proof (editCard_image_legacy
    {["name" := VStr "Old"; "image" := VStr "data:x"; "imagePosition" := VStr "top"]}
    eq_refl) as (Hx & Htop & _).
  specialize (Htop "top" eq_refl eq_refl).
  destruct (editCard_image _) as [i x y] eqn:E. simpl in Hx, Htop. subst x y.
  f_equal. apply (f_equal currentCardImage) in E. simpl in E. rewrite <- E. reflexivity.
Defined.


Ltac form_cases form :=
  unfold form_cardData;
  destruct (strict_eq_str "evento" (selectedType form));
    [|destruct (strict_eq_str "local" (selectedType form));
      [|destruct (strict_eq_str "personagem" (selectedType form))]].

Lemma form_cardData_base (form : Form) (f : string) :
  f ∉ type_fields →
  form_cardData form !! f =
    (getCardImageData (form_image form) ∪
      {["type" := selectedType form;
        "name" := VStr (trim (card_name form));
        "description" := VStr (trim (card_description form))]}) !! f.
Proof.
  intros Hf. unfold type_fields in Hf. rewrite !elem_of_cons, elem_of_nil in Hf.
  form_cases form; cbv zeta;
    rewrite ?lookup_insert_ne by (intros <-; apply Hf; tauto); reflexivity.
Qed.


Lemma getCardImageData_other (st : ImageData) (f : string) :
  f ∉ ["image"; "imagePositionX"; "imagePositionY"] →
  getCardImageData st !! f = None.
Proof.
  rewrite !elem_of_cons, elem_of_nil. intros Hf. unfold getCardImageData.
  by rewrite !lookup_insert_ne, lookup_singleton_ne by (intros <-; apply Hf; tauto).
Qed.

Lemma form_cardData_fields (form : Form) :
  form_cardData form !! "name" = Some (VStr (trim (card_name form))) ∧
  form_cardData form !! "description" = Some (VStr (trim (card_description form))) ∧
  form_cardData form !! "type" = Some (selectedType form) ∧
  form_cardData form !! "id" = None ∧
  form_cardData form !! "createdAt" = None ∧
  form_cardData form !! "updatedAt" = None.
Proof.
  split_and!;
    (rewrite form_cardData_base by (apply (bool_decide_unpack _); reflexivity));
    (rewrite lookup_union_r
       by (apply getCardImageData_other, (bool_decide_unpack _); reflexivity)).
  - by rewrite lookup_insert_ne, lookup_insert_eq.
  - by rewrite !lookup_insert_ne, lookup_singleton_eq.
  - by rewrite lookup_insert_eq.
  - by rewrite !lookup_insert_ne, lookup_singleton_ne.
  - by rewrite !lookup_insert_ne, lookup_singleton_ne.
  - by rewrite !lookup_insert_ne, lookup_singleton_ne.
Qed.

Lemma form_cardData_refs (form : Form) (f : string) :
  f ∈ ref_fields → strippable_field (form_cardData form !! f) = true.
Proof.
  assert (Hbase : ∀ g, g ∈ ref_fields →
            (getCardImageData (form_image form) ∪
              ({["type" := selectedType form;
                 "name" := VStr (trim (card_name form));
                 "description" := VStr (trim (card_description form))]} : Card)) !! g
            = None).
  { intros g Hg. rewrite ref_fields_spec in Hg.
    rewrite lookup_union_r
      by (apply getCardImageData_other; rewrite !elem_of_cons, elem_of_nil;
          intros H; destruct Hg as [->|[->| ->]]; decompose [or] H; congruence).
    destruct Hg as [->|[->| ->]]; by rewrite !lookup_insert_ne, lookup_singleton_ne. }
  intros Hf. pose proof (Hbase f Hf) as Hb. rewrite ref_fields_spec in Hf.
  form_cases form; cbv zeta.
  - rewrite !lookup_insert_ne by (intros <-; destruct Hf as [?|[?|?]]; congruence).
    by rewrite Hb.
  - destruct (decide (f = "presentCharacters")) as [->|H1];
      [by rewrite lookup_insert_eq|rewrite lookup_insert_ne by done].
    destruct (decide (f = "adjacentLocations")) as [->|H2];
      [by rewrite lookup_insert_eq|rewrite lookup_insert_ne by done].
    by rewrite Hb.
  - destruct (decide (f = "bonds")) as [->|H1];
      [by rewrite lookup_insert_eq|rewrite lookup_insert_ne by done].
    rewrite !lookup_insert_ne by (intros <-; destruct Hf as [?|[?|?]]; congruence).
    by rewrite Hb.
  - by rewrite Hb.
Qed.

Lemma searchable_intro (c : Card) (n d : string) :
  c !! "name" = Some (VStr n) → c !! "description" = Some (VStr d) →
  searchable c = true.
Proof. unfold searchable. by intros -> ->. Qed.

Lemma strippable_spec (c : Card) :
  strippable c = true ↔ ∀ f, f ∈ ref_fields → strippable_field (c !! f) = true.
Proof.
  unfold strippable. rewrite forallb_forall.
  split; intros H f Hf; apply H; by apply list_elem_of_In.
Qed.

Lemma searchCards_total (query : string) (s : DataStore) :
  Forall (λ c, searchable c = true) (cards s) →
  ∃ result, searchCards query s = Normal result.
Proof.
  intros Hs. eexists. unfold searchCards.
  apply (filter_completion_Normal _ (card_matchesb query)).
  intros c Hc. rewrite Forall_forall in Hs. by apply search_match_searchable, Hs.
Qed.

(** [handleFormSubmit] without a type selected, or with a name of
    blanks only, saves nothing: the store is as it was, the handler
    returns without failure, and neither the toast of a creation nor
    that of an update is shown. *)
Theorem handleFormSubmit_rejects (ui : Ui) (now : Z) (random36 : string)
    (t_created t_updated : Z) (form : Form) (s : DataStore) :
  truthy (selectedType form) = false ∨ trim (card_name form) = "" →
  let r := handleFormSubmit ui now random36 t_created t_updated form s in
  r.2 = s ∧ r.1.2 = Normal () ∧ r.1.1 ≠ CardCreated ∧ r.1.1 ≠ CardUpdated.
Proof.
  cbv zeta. unfold handleFormSubmit. intros [Ht|Hn].
  - by rewrite Ht.
  - rewrite Hn. by destruct (truthy (selectedType form)).
Qed.

Lemma handleFormSubmit_rejects_witness :
  handleFormSubmit page_all 1 "0.aaa" 1 1 blank_form world
    = (EnterName, Normal (), world).
Proof.
  destruct (handleFormSubmit_rejects page_all 1 "0.aaa" 1 1 blank_form world)
    as (H & _ & _ & _).
  - right. reflexivity.
  - reflexivity.
Defined.

Lemma form_save_keeps (now : Z) (random36 : string) (t_created t_updated : Z)
    (form : Form) (s : DataStore) :
  Forall (λ c, searchable c = true ∧ strippable c = true) (cards s) →
  Forall (λ c, searchable c = true ∧ strippable c = true)
    (cards (form_save now random36 t_created t_updated form s).2).
Proof.
  intros Hs.
  destruct (form_cardData_fields form) as (Hname & Hdesc & _ & Hid & Hcr & Hup).
  assert (Hcreate : Forall (λ c, searchable c = true ∧ strippable c = true)
            (cards (createCard now random36 t_created t_updated (form_cardData form) s).2)).
  { unfold createCard. simpl. apply Forall_app. split; [done|].
    apply Forall_singleton. split.
    - eapply searchable_intro; by apply lookup_union_Some_l.
    - apply strippable_spec. intros f Hf.
      destruct (ref_fields_other f Hf) as (Hfu & Hfc & Hfi).
      destruct (form_cardData form !! f) as [v|] eqn:Hv.
      + rewrite (lookup_union_Some_l _ _ _ _ Hv). rewrite <- Hv.
        by apply form_cardData_refs.
      + rewrite lookup_union_r by done.
        by rewrite !lookup_insert_ne, lookup_singleton_ne. }
  assert (Hupdate : ∀ id, Forall (λ c, searchable c = true ∧ strippable c = true)
            (cards (updateCard t_updated id (form_cardData form) s).2)).
  { intros id. unfold updateCard.
    destruct (findIndex (has_id id) (cards s)) as [index|]; [|done].
    destruct (cards s !! index) as [old|] eqn:Hold; [|done]. simpl.
    apply Forall_insert; [done|]. split.
    - eapply searchable_intro; rewrite lookup_insert_ne by done;
        by apply lookup_union_Some_l.
    - apply strippable_spec. intros f Hf.
      destruct (ref_fields_other f Hf) as (Hfu & Hfc & Hfi).
      rewrite lookup_insert_ne by done.
      destruct (form_cardData form !! f) as [v|] eqn:Hv.
      + rewrite (lookup_union_Some_l _ _ _ _ Hv). rewrite <- Hv.
        by apply form_cardData_refs.
      + rewrite lookup_union_r by done.
        rewrite Forall_forall in Hs.
        destruct (Hs old) as [_ Hold']; [apply list_elem_of_lookup; eauto|].
        by apply strippable_spec. }
  unfold form_save. repeat case_match; simpl; auto.
Qed.

Lemma handleFormSubmit_store (ui : Ui) (now : Z) (random36 : string)
    (t_created t_updated : Z) (form : Form) (s : DataStore) :
  sort_conforms ui →
  let r := handleFormSubmit ui now random36 t_created t_updated form s in
  r.2 = s ∨
  (cards r.2 ≡ₚ cards (form_save now random36 t_created t_updated form s).2 ∧
   navigationHistory r.2 =
     navigationHistory (form_save now random36 t_created t_updated form s).2 ∧
   r.1.1 = (form_save now random36 t_created t_updated form s).1).
Proof.
  intros Hui. cbv zeta. unfold handleFormSubmit.
  destruct (negb (truthy (selectedType form))); [by left|].
  destruct (negb (truthy (VStr (trim (card_name form))))); [by left|].
  right. destruct (form_save now random36 t_created t_updated form s) as [toast s'].
  pose proof (render_Permutation ui (cards s') Hui) as Hperm.
  by destruct (render ui (cards s')) as [r cs].
Qed.

(** [handleFormSubmit] keeps the store fit for [searchCards] and
    [deleteCard]: when every card has a string for a name, a string or
    nothing that counts for a description, and reference fields that are
    absent, falsy or arrays, so has every card after the form is
    submitted, and then no search and no deletion throws. *)
Theorem handleFormSubmit_keeps (ui : Ui) (now : Z) (random36 : string)
    (t_created t_updated : Z) (form : Form) (s : DataStore) :
  sort_conforms ui →
  Forall (λ c, searchable c = true ∧ strippable c = true) (cards s) →
  let s' := (handleFormSubmit ui now random36 t_created t_updated form s).2 in
  Forall (λ c, searchable c = true ∧ strippable c = true) (cards s') ∧
  (∀ query, ∃ result, searchCards query s' = Normal result) ∧
  (∀ id e, (deleteCard id s').1 ≠ Throw e).
Proof.
  intros Hui Hs. cbv zeta.
  assert (H' : Forall (λ c, searchable c = true ∧ strippable c = true)
            (cards (handleFormSubmit ui now random36 t_created t_updated form s).2)).
  { destruct (handleFormSubmit_store ui now random36 t_created t_updated form s Hui)
      as [-> | (Hperm & _ & _)]; [done|].
    rewrite Hperm. by apply form_save_keeps. }
  split_and!; [done| |].
  - intros query. apply searchCards_total.
    eapply Forall_impl; [exact H'|]. by intros c [? _].
  - intros id e He.
    destruct (findIndex (has_id id)
                (cards (handleFormSubmit ui now random36 t_created t_updated form s).2))
      as [index|] eqn:Hfind.
    + destruct (deleteCard_cases id _ index Hfind) as (cs' & _ & [[_ Hd]|[Hn _]]).
      * by rewrite Hd in He.
      * apply Hn. eapply Forall_impl; [exact H'|]. by intros c [_ ?].
    + unfold deleteCard in He. by rewrite Hfind in He.
Qed.

Lemma handleFormSubmit_keeps_witness :
  Forall (λ c, searchable c = true ∧ strippable c = true)
    (cards (handleFormSubmit page_all 1 "0.aaa" 1 1 harbour_form world).2).
Proof.
  apply (handleFormSubmit_keeps page_all 1 "0.aaa" 1 1 harbour_form world).
  - by apply insertion_sort_conforms.
  - repeat constructor.
Defined.


